(** * file_read_backwards: the backward chunked-read buffer

    A shallow embedding of [file_read_backwards/buffer_work_space.py] and the
    properties of its line buffer.  Python integers are [Z], byte strings are
    lists of [Byte.byte], the mutable [BufferWorkSpace] object is a record
    passed from call to call, exceptions are a [result] type and the two
    [while] loops whose termination depends on the configuration take fuel. *)

From Stdlib Require Import Bool ZArith Lia Strings.Byte Ascii String List Sorted.
Import ListNotations.
Local Open Scope Z_scope.

Definition bytes := list byte.

Definition CR : byte := x0d.
Definition LF : byte := x0a.

(** ** Exceptions *)

Inductive exn := AssertionError | ValueError | AttributeError.

Inductive result (A : Type) :=
| Ok (a : A)
| Raise (e : exn).
Arguments Ok {A} a.
Arguments Raise {A} e.

Definition bind {A B} (m : result A) (k : A -> result B) : result B :=
  match m with
  | Ok a => k a
  | Raise e => Raise e
  end.

Notation "x <- m ;; k" := (bind m (fun x => k))
  (at level 61, m at next level, right associativity).

(** ** The Python built-ins the module relies on *)

Module Py.

Definition len {A} (l : list A) : Z := Z.of_nat (length l).

(** [b.startswith(n)] *)
Fixpoint startswith (b n : bytes) {struct n} : bool :=
  match n, b with
  | [], _ => true
  | _ :: _, [] => false
  | y :: n', x :: b' => Byte.eqb x y && startswith b' n'
  end.

(** [b.endswith(n)] *)
Definition endswith (b n : bytes) : bool := startswith (rev b) (rev n).

(** [b.find(n)]: lowest index at which [n] occurs in [b], or -1. *)
Fixpoint find_from (i : Z) (b n : bytes) {struct b} : Z :=
  if startswith b n then i
  else match b with
       | [] => -1
       | _ :: b' => find_from (i + 1) b' n
       end.

Definition find (b n : bytes) : Z := find_from 0 b n.

(** [b.rfind(n)]: highest index at which [n] occurs in [b], or -1. *)
Fixpoint rfind_from (i : Z) (b n : bytes) {struct b} : Z :=
  match b with
  | [] => if startswith b n then i else -1
  | _ :: b' =>
      let r := rfind_from (i + 1) b' n in
      if 0 <=? r then r else if startswith b n then i else -1
  end.

Definition rfind (b n : bytes) : Z := rfind_from 0 b n.

(** A slice bound, as Python normalises it against the length. *)
Definition bound (k n : Z) : nat :=
  Z.to_nat (if k <? 0 then Z.max (k + n) 0 else Z.min k n).

(** [l[start:]] *)
Definition slice_from {A} (l : list A) (start : Z) : list A :=
  skipn (bound start (len l)) l.

(** [l[:stop]], which is also [l[0:stop]] *)
Definition slice_to {A} (l : list A) (stop : Z) : list A :=
  firstn (bound stop (len l)) l.

(** [max(l)]; it raises [ValueError] on an empty list. *)
Definition max (l : list Z) : result Z :=
  match l with
  | [] => Raise ValueError
  | x :: l' => Ok (fold_left Z.max l' x)
  end.

(** [sorted(l, key=len, reverse=True)]: a stable sort, longest first. *)
Fixpoint insert_longest_first (x : bytes) (l : list bytes) : list bytes :=
  match l with
  | [] => [x]
  | y :: l' =>
      if (length y <=? length x)%nat then x :: l
      else y :: insert_longest_first x l'
  end.

Definition sorted_longest_first (l : list bytes) : list bytes :=
  fold_right insert_longest_first [] l.

(** [s.encode(encoding)] for strings of code points below 256 and the
    codecs named here. *)
Inductive Encoding := utf_8 | latin_1 | utf_16_le | utf_16_be.

Definition byte_of_N (n : N) : byte :=
  match Byte.of_N n with
  | Some b => b
  | None => x00
  end.

Definition encode_char (e : Encoding) (c : ascii) : bytes :=
  let n := N_of_ascii c in
  match e with
  | utf_8 =>
      if (n <? 128)%N then [byte_of_N n]
      else [byte_of_N (192 + n / 64); byte_of_N (128 + n mod 64)]
  | latin_1 => [byte_of_N n]
  | utf_16_le => [byte_of_N n; x00]
  | utf_16_be => [x00; byte_of_N n]
  end.

Fixpoint encode (e : Encoding) (s : string) : bytes :=
  match s with
  | EmptyString => []
  | String c s' => encode_char e c ++ encode e s'
  end.

(** ** A binary file object opened for reading *)

Record file := { data : bytes; offset : Z }.

(** [fp.seek(p)]; the module only ever seeks to positions at or above 0. *)
Definition seek (fp : file) (p : Z) : file :=
  {| data := data fp; offset := p |}.

(** [fp.read(n)] of a buffered binary reader: at most [n] bytes from the
    current offset, all the remaining ones when [n] is -1; the offset moves
    past them.  A length below -1 raises [ValueError]. *)
Definition read (fp : file) (n : Z) : result (bytes * file) :=
  if n <? -1 then Raise ValueError
  else
    let avail := skipn (Z.to_nat (offset fp)) (data fp) in
    let got := if n <? 0 then avail else firstn (Z.to_nat n) avail in
    Ok (got, {| data := data fp; offset := offset fp + len got |}).

(** [os.fstat(fp.fileno()).st_size] *)
Definition st_size (fp : file) : Z := len (data fp).

End Py.

Import Py.

(** ** buffer_work_space.py *)

Definition cr_char : ascii := ascii_of_nat 13.
Definition lf_char : ascii := ascii_of_nat 10.

(** [new_lines = ["\r\n", "\n", "\r"]] *)
Definition new_lines : list string :=
  [ String cr_char (String lf_char EmptyString);
    String lf_char EmptyString;
    String cr_char EmptyString ].

Record BufferWorkSpace := {
  fp : file;
  read_position : Z;
  read_buffer : option bytes;
  chunk_size : Z;
  encoding : Encoding;
  new_lines_bytes : list bytes
}.

Definition _get_file_size (fp : file) : Z := st_size fp.

(** [BufferWorkSpace.__init__] *)
Definition __init__ (fp : file) (chunk_size : Z) (encoding : Encoding)
  : BufferWorkSpace :=
  {| fp := fp;
     read_position := _get_file_size fp;
     read_buffer := None;
     chunk_size := chunk_size;
     encoding := encoding;
     new_lines_bytes := map (encode encoding) new_lines |}.

Definition add_to_buffer (self : BufferWorkSpace) (content : bytes)
  (read_position : Z) : BufferWorkSpace :=
  {| fp := fp self;
     read_position := read_position;
     read_buffer :=
       match read_buffer self with
       | None => Some content
       | Some old => Some (content ++ old)
       end;
     chunk_size := chunk_size self;
     encoding := encoding self;
     new_lines_bytes := new_lines_bytes self |}.

(** The [for] loop of [_remove_trailing_new_line] over the sorted
    terminators: the first one that ends [line] is cut off. *)
Fixpoint remove_first_match (line : bytes) (sorted : list bytes) : bytes :=
  match sorted with
  | [] => line
  | n :: rest =>
      if endswith line n then slice_to line (- len n)
      else remove_first_match line rest
  end.

Definition _remove_trailing_new_line (line : bytes) (new_lines_bytes : list bytes)
  : bytes :=
  remove_first_match line (sorted_longest_first new_lines_bytes).

Definition _find_furthest_new_line (read_buffer : bytes)
  (new_lines_bytes : list bytes) : result Z :=
  Py.max (map (rfind read_buffer) new_lines_bytes).

Definition _is_partially_read_new_line (b : bytes) (new_lines_bytes : list bytes)
  : bool :=
  existsb (fun n => 1 <=? find n b) new_lines_bytes.

(** The [while seek_position > 0] loop of [_get_what_to_read_next].  Every
    turn lowers [seek_position] by one, so [Z.to_nat seek_position] turns
    are enough and the [O] case is only met once [seek_position <= 0]. *)
Fixpoint walk_back (turns : nat) (fp : file) (seek_position read_size : Z)
  (new_lines_bytes : list bytes) : result (file * (Z * Z)) :=
  match turns with
  | O => Ok (fp, (seek_position, read_size))
  | S turns' =>
      if 0 <? seek_position then
        let fp1 := seek fp seek_position in
        got <- read fp1 1 ;;
        let '(b, fp2) := got in
        if _is_partially_read_new_line b new_lines_bytes then
          walk_back turns' fp2 (seek_position - 1) (read_size + 1)
            new_lines_bytes
        else Ok (fp2, (seek_position, read_size))
      else Ok (fp, (seek_position, read_size))
  end.

Definition _get_what_to_read_next (fp : file)
  (previously_read_position chunk_size : Z) (new_lines_bytes : list bytes)
  : result (file * (Z * Z)) :=
  let seek_position := Z.max (previously_read_position - chunk_size) 0 in
  let read_size := chunk_size in
  walked <- walk_back (Z.to_nat seek_position) fp seek_position read_size
              new_lines_bytes ;;
  let '(fp', (seek_position, read_size)) := walked in
  let read_size := Z.min (previously_read_position - seek_position) read_size in
  Ok (fp', (seek_position, read_size)).

Definition _get_next_chunk (fp : file)
  (previously_read_position chunk_size : Z) (new_lines_bytes : list bytes)
  : result (file * (bytes * Z)) :=
  next <- _get_what_to_read_next fp previously_read_position chunk_size
            new_lines_bytes ;;
  let '(fp1, (seek_position, read_size)) := next in
  let fp2 := seek fp1 seek_position in
  got <- read fp2 read_size ;;
  let '(read_content, fp3) := got in
  let read_position := seek_position in
  Ok (fp3, (read_content, read_position)).

Definition yieldable (self : BufferWorkSpace) : result bool :=
  match read_buffer self with
  | None => Ok false
  | Some buf =>
      let t := _remove_trailing_new_line buf (new_lines_bytes self) in
      n <- _find_furthest_new_line t (new_lines_bytes self) ;;
      if 0 <=? n then Ok true
      else if read_position self =? 0 then Ok true
      else Ok false
  end.

Definition set_read_buffer (self : BufferWorkSpace) (b : option bytes)
  : BufferWorkSpace :=
  {| fp := fp self;
     read_position := read_position self;
     read_buffer := b;
     chunk_size := chunk_size self;
     encoding := encoding self;
     new_lines_bytes := new_lines_bytes self |}.

Definition set_fp (self : BufferWorkSpace) (f : file) : BufferWorkSpace :=
  {| fp := f;
     read_position := read_position self;
     read_buffer := read_buffer self;
     chunk_size := chunk_size self;
     encoding := encoding self;
     new_lines_bytes := new_lines_bytes self |}.

(** [return_line]: the line and the object after the call.  With the
    assertion passed the buffer is not [None]; on [None] the call to
    [endswith] would raise [AttributeError]. *)
Definition return_line (self : BufferWorkSpace)
  : result (bytes * BufferWorkSpace) :=
  ok <- yieldable self ;;
  if negb ok then Raise AssertionError
  else
    match read_buffer self with
    | None => Raise AttributeError
    | Some buf =>
        let t := _remove_trailing_new_line buf (new_lines_bytes self) in
        i <- _find_furthest_new_line t (new_lines_bytes self) ;;
        if 0 <=? i then
          let delimiter := i + 1 in
          let r := slice_from t delimiter in
          Ok (r, set_read_buffer self (Some (slice_to t delimiter)))
        else
          Ok (t, set_read_buffer self None)
    end.

(** [read_until_yieldable]: [None] when the fuel runs out before the loop
    condition fails. *)
Fixpoint read_until_yieldable (fuel : nat) (self : BufferWorkSpace)
  : option (result BufferWorkSpace) :=
  match fuel with
  | O => None
  | S fuel' =>
      match yieldable self with
      | Raise e => Some (Raise e)
      | Ok true => Some (Ok self)
      | Ok false =>
          match _get_next_chunk (fp self) (read_position self)
                  (chunk_size self) (new_lines_bytes self) with
          | Raise e => Some (Raise e)
          | Ok (fp', (read_content, read_position)) =>
              read_until_yieldable fuel'
                (add_to_buffer (set_fp self fp') read_content read_position)
          end
      end
  end.

Definition has_returned_every_line (self : BufferWorkSpace) : bool :=
  (read_position self =? 0) &&
  match read_buffer self with None => true | Some _ => false end.

(** Modelled from the spec: the iteration driver ([next_line] of the spec's
    section 6), which is not part of this module.  While
    [has_returned_every_line] is false it calls [read_until_yieldable] and
    then [return_line]; the lines are listed in emission order. *)
Fixpoint iterate (fuel : nat) (self : BufferWorkSpace)
  : option (result (list bytes * BufferWorkSpace)) :=
  match fuel with
  | O => None
  | S fuel' =>
      if has_returned_every_line self then Some (Ok ([], self))
      else
        match read_until_yieldable fuel self with
        | None => None
        | Some (Raise e) => Some (Raise e)
        | Some (Ok s1) =>
            match return_line s1 with
            | Raise e => Some (Raise e)
            | Ok (r, s2) =>
                match iterate fuel' s2 with
                | None => None
                | Some (Raise e) => Some (Raise e)
                | Some (Ok (rest, s3)) => Some (Ok (r :: rest, s3))
                end
            end
        end
  end.

Definition open (content : bytes) : file := {| data := content; offset := 0 |}.

Definition lines_of (fuel : nat) (content : bytes) (chunk : Z) (e : Encoding) :=
  match iterate fuel (__init__ (open content) chunk e) with
  | Some (Ok (ls, _)) => Some ls
  | _ => None
  end.

Definition bs (s : string) : bytes := list_byte_of_string s.


(** ** Reference notions the properties are stated with *)

(** The terminators of the ASCII-compatible encodings. *)
Definition ascii_new_lines : list bytes := [[CR; LF]; [LF]; [CR]].

Definition is_nl (x : byte) : bool := Byte.eqb x CR || Byte.eqb x LF.

(** [n] occurs in [b] at index [k]. *)
Definition occurs_at (n b : bytes) (k : nat) : Prop :=
  (k <= length b)%nat /\ startswith (skipn k b) n = true.

Definition suffix_of (n b : bytes) : Prop := exists p, b = p ++ n.

(** What [fp.seek(q)] followed by [fp.read(1)] returns. *)
Definition file_byte (content : bytes) (q : Z) : bytes :=
  firstn 1 (skipn (Z.to_nat q) content).

(** Modelled from the spec: a byte that "appears at index >= 1 within some
    terminator sequence", read as: some terminator holds it at an index
    other than 0. *)
Definition later_byte_of_terminator (b : bytes) (new_lines_bytes : list bytes)
  : bool :=
  match b with
  | [x] => existsb (fun n => existsb (Byte.eqb x) (tl n)) new_lines_bytes
  | _ => false
  end.

(** Modelled from the spec: the next-read computation with the walk led by
    [later_byte_of_terminator]; it returns the seek offset and the read
    length. *)
Fixpoint spec_walk_back (turns : nat) (content : bytes)
  (seek_position read_size : Z) (new_lines_bytes : list bytes) : Z * Z :=
  match turns with
  | O => (seek_position, read_size)
  | S turns' =>
      if (0 <? seek_position) &&
         later_byte_of_terminator (file_byte content seek_position)
           new_lines_bytes
      then spec_walk_back turns' content (seek_position - 1) (read_size + 1)
             new_lines_bytes
      else (seek_position, read_size)
  end.

Definition spec_what_to_read_next (content : bytes)
  (previously_read_position chunk_size : Z) (new_lines_bytes : list bytes)
  : Z * Z :=
  let seek_position := Z.max (previously_read_position - chunk_size) 0 in
  let '(seek_position, read_size) :=
    spec_walk_back (Z.to_nat seek_position) content seek_position chunk_size
      new_lines_bytes in
  (seek_position, Z.min read_size (previously_read_position - seek_position)).

(** Modelled from the spec: the lines of a file in file order, each with the
    terminator that follows it, the longest terminator taken first; the last
    line has the empty terminator when the file does not end with one. *)
Fixpoint split_forward (cur content : bytes) {struct content}
  : list (bytes * bytes) :=
  match content with
  | [] => match cur with [] => [] | _ :: _ => [(cur, [])] end
  | x :: rest =>
      if Byte.eqb x CR then
        match rest with
        | [] => [(cur, [CR])]
        | y :: rest' =>
            if Byte.eqb y LF then (cur, [CR; LF]) :: split_forward [] rest'
            else (cur, [CR]) :: split_forward [] rest
        end
      else if Byte.eqb x LF then (cur, [LF]) :: split_forward [] rest
      else split_forward (cur ++ [x]) rest
  end.

Definition forward_lines (content : bytes) : list (bytes * bytes) :=
  split_forward [] content.



(** One call of [read_until_yieldable] or of [return_line] that returns. *)
Inductive step : BufferWorkSpace -> BufferWorkSpace -> Prop :=
| step_fill (s s' : BufferWorkSpace) (fuel : nat) :
    read_until_yieldable fuel s = Some (Ok s') -> step s s'
| step_produce (s s' : BufferWorkSpace) (r : bytes) :
    return_line s = Ok (r, s') -> step s s'.

Inductive reachable (f : file) (chunk : Z) (e : Encoding)
  : BufferWorkSpace -> Prop :=
| reach_init : reachable f chunk e (__init__ f chunk e)
| reach_step (s s' : BufferWorkSpace) :
    reachable f chunk e s -> step s s' -> reachable f chunk e s'.

(** [t] is [buf] with one trailing terminator cut off, a longest one among
    those that end [buf]; it is [buf] itself when none ends it. *)
Definition stripped_of (nls : list bytes) (buf t : bytes) : Prop :=
  (exists n, In n nls /\ buf = t ++ n /\
     forall n', In n' nls -> suffix_of n' buf -> (length n' <= length n)%nat) \/
  (t = buf /\ forall n, In n nls -> ~ suffix_of n buf).

(** The order [sorted(..., key=len, reverse=True)] leaves the list in. *)
Definition longer_first (a b : bytes) : Prop := (length b <= length a)%nat.

(** The terminators are the ones [__init__] computes from the encoding. *)
Definition configured (s : BufferWorkSpace) : Prop :=
  new_lines_bytes s = map (encode (encoding s)) new_lines.

(** One turn of the loop of [read_until_yieldable]; the state itself when
    the read raises. *)
Definition read_once (self : BufferWorkSpace) : BufferWorkSpace :=
  match _get_next_chunk (fp self) (read_position self) (chunk_size self)
          (new_lines_bytes self) with
  | Ok (fp', (read_content, read_position)) =>
      add_to_buffer (set_fp self fp') read_content read_position
  | Raise _ => self
  end.

(** The bytes of the file from offset [lo] up to offset [hi]. *)
Definition between (content : bytes) (lo hi : Z) : bytes :=
  firstn (Z.to_nat (hi - lo)) (skipn (Z.to_nat lo) content).

(** The buffer of a state, [None] read as no bytes. *)
Definition buffered (s : BufferWorkSpace) : bytes :=
  match read_buffer s with
  | None => []
  | Some b => b
  end.

(** What [__init__] establishes and every operation keeps, for a positive
    chunk size. *)
Definition well_formed (s : BufferWorkSpace) : Prop :=
  configured s /\ 0 < chunk_size s /\
  0 <= read_position s <= _get_file_size (fp s).

(** No byte of [l] is [\r] or [\n]. *)
Definition no_nl (l : bytes) : Prop := Forall (fun x => is_nl x = false) l.

(** A line followed by its terminator. *)
Definition with_terminator (p : bytes * bytes) : bytes := fst p ++ snd p.

(** The state [s] of a session over the file [F] has still to emit the lines
    of the prefix [P] of [F]: the buffer holds [P] from [read_position] on. *)
Definition covers (F : bytes) (s : BufferWorkSpace) (P : bytes) : Prop :=
  well_formed s /\
  new_lines_bytes s = ascii_new_lines /\
  data (fp s) = F /\
  (exists rest, F = P ++ rest) /\
  P <> [] /\
  P = firstn (Z.to_nat (read_position s)) F ++ buffered s /\
  match read_buffer s with
  | None => 0 < read_position s
  | Some b => b <> []
  end.

(** The encoding writes the three terminators as ASCII does. *)
Definition ascii_compatible (e : Encoding) : Prop :=
  map (encode e) new_lines = ascii_new_lines.

(** Fuel that lets the iteration over a file run to its end. *)
Definition enough (content : bytes) : nat := (2 * length content + 2)%nat.

(** Lines written out one after the other, each followed by [term]. *)
Definition joined (term : bytes) (ls : list bytes) : bytes :=
  concat (map (fun l => l ++ term) ls).

(** Sample states. *)
Definition sample_ready : BufferWorkSpace :=
  {| fp := open (bs "a" ++ [LF] ++ bs "b");
     read_position := 0;
     read_buffer := Some (bs "a" ++ [LF] ++ bs "b");
     chunk_size := 4;
     encoding := utf_8;
     new_lines_bytes := map (encode utf_8) new_lines |}.

(** The state an empty file is in after one turn of the read loop. *)
Definition empty_present : BufferWorkSpace :=
  read_once (__init__ (open []) 1 utf_8).

(** * Properties *)

(** ** Python built-ins *)

Section PyFacts.

Lemma len_nonneg {A} (l : list A) : 0 <= len l.
Proof. unfold len. lia. Qed.

Lemma len_app {A} (a b : list A) : len (a ++ b) = len a + len b.
Proof. unfold len. rewrite length_app. lia. Qed.

Lemma startswith_iff (b n : bytes) :
  startswith b n = true <-> exists q, b = n ++ q.
Proof.
  revert b. induction n as [|y n IH]; intros b; simpl.
  - split; [exists b; reflexivity | reflexivity].
  - destruct b as [|x b].
    + split; [discriminate | intros [q Hq]; discriminate].
    + rewrite andb_true_iff, IH. split.
      * intros [Hxy [q ->]]. apply byte_dec_bl in Hxy. subst. now exists q.
      * intros [q Hq]. injection Hq as -> ->. split.
        -- now apply byte_dec_lb.
        -- now exists q.
Qed.

Lemma startswith_nil (b : bytes) : startswith b [] = true.
Proof. now destruct b. Qed.

Lemma endswith_iff (b n : bytes) : endswith b n = true <-> suffix_of n b.
Proof.
  unfold endswith, suffix_of. rewrite startswith_iff. split.
  - intros [q Hq]. exists (rev q).
    rewrite <- (rev_involutive b), Hq, rev_app_distr, rev_involutive.
    reflexivity.
  - intros [p ->]. exists (rev p). now rewrite rev_app_distr.
Qed.

Lemma slice_to_suffix (p n : bytes) :
  n <> [] -> slice_to (p ++ n) (- len n) = p.
Proof.
  intros Hn. unfold slice_to, bound.
  assert (0 < len n) by (unfold len; destruct n; [congruence | simpl; lia]).
  destruct (Z.ltb_spec (- len n) 0); [|lia].
  rewrite len_app.
  replace (Z.to_nat (Z.max (- len n + (len p + len n)) 0)) with (length p)
    by (unfold len; lia).
  rewrite firstn_app, firstn_all, Nat.sub_diag. simpl. apply app_nil_r.
Qed.

Lemma slice_to_zero {A} (l : list A) : slice_to l 0 = [].
Proof.
  unfold slice_to, bound. simpl.
  replace (Z.to_nat (Z.min 0 (len l))) with O by (unfold len; lia).
  reflexivity.
Qed.

Lemma slice_from_to {A} (l : list A) (d : Z) :
  slice_to l d ++ slice_from l d = l.
Proof. apply firstn_skipn. Qed.

End PyFacts.

Section SearchFacts.

Lemma occurs_at_cons (n : bytes) (x : byte) (b : bytes) (k : nat) :
  occurs_at n (x :: b) (S k) <-> occurs_at n b k.
Proof. unfold occurs_at. simpl. split; intros [H1 H2]; split; auto; lia. Qed.

Lemma occurs_at_zero (n b : bytes) :
  occurs_at n b 0 <-> startswith b n = true.
Proof. unfold occurs_at. simpl. split; [tauto | split; [lia | assumption]]. Qed.

(** [rfind] returns -1 when the pattern does not occur, and otherwise the
    highest index at which it does. *)
Lemma rfind_from_cases (b n : bytes) (i : Z) :
  0 <= i ->
  (rfind_from i b n = -1 /\ forall k, ~ occurs_at n b k) \/
  (exists k, rfind_from i b n = i + Z.of_nat k /\ occurs_at n b k /\
             forall j, (k < j)%nat -> ~ occurs_at n b j).
Proof.
  revert i. induction b as [|x b IH]; intros i Hi.
  - simpl. destruct n as [|y n]; simpl.
    + right. exists O. split; [lia|]. split.
      * apply occurs_at_zero. reflexivity.
      * intros j Hj [Hk _]. simpl in Hk. lia.
    + left. split; [reflexivity|].
      intros k [Hk Hs]. destruct k; simpl in *; [discriminate | lia].
  - cbn [rfind_from].
    assert (Hi1 : 0 <= i + 1) by lia.
    destruct (IH (i + 1) Hi1) as [[Hr Hno] | [k [Hr [Hocc Hmax]]]].
    + rewrite Hr. change (0 <=? -1) with false. cbv iota.
      destruct (startswith (x :: b) n) eqn:Hs.
      * right. exists O. split; [lia|]. split.
        -- now apply occurs_at_zero.
        -- intros [|j] Hj; [lia|]. rewrite occurs_at_cons. apply Hno.
      * left. split; [reflexivity|]. intros [|k].
        -- rewrite occurs_at_zero. congruence.
        -- rewrite occurs_at_cons. apply Hno.
    + rewrite Hr. destruct (Z.leb_spec 0 (i + 1 + Z.of_nat k)); [|lia].
      right. exists (S k). split; [lia|]. split.
      * now apply occurs_at_cons.
      * intros [|j] Hj; [lia|]. rewrite occurs_at_cons. apply Hmax. lia.
Qed.

Lemma rfind_cases (b n : bytes) :
  (rfind b n = -1 /\ forall k, ~ occurs_at n b k) \/
  (exists k, rfind b n = Z.of_nat k /\ occurs_at n b k /\
             forall j, (k < j)%nat -> ~ occurs_at n b j).
Proof.
  unfold rfind.
  destruct (rfind_from_cases b n 0 (Z.le_refl 0)) as [H | [k [H1 H2]]];
    [left; exact H | right; exists k; split; [lia | exact H2]].
Qed.

Lemma fold_left_max_ge (l : list Z) (x : Z) :
  x <= fold_left Z.max l x /\ forall y, In y l -> y <= fold_left Z.max l x.
Proof.
  revert x. induction l as [|a l IH]; intros x; simpl.
  - split; [lia | tauto].
  - destruct (IH (Z.max x a)) as [H1 H2]. split; [lia|].
    intros y [-> | Hy]; [lia | auto].
Qed.

Lemma fold_left_max_in (l : list Z) (x : Z) :
  fold_left Z.max l x = x \/ In (fold_left Z.max l x) l.
Proof.
  revert x. induction l as [|a l IH]; intros x; simpl.
  - now left.
  - destruct (IH (Z.max x a)) as [H | H].
    + rewrite H. destruct (Z.max_spec x a) as [[_ ->] | [_ ->]]; auto.
    + auto.
Qed.

Lemma max_spec (l : list Z) (m : Z) :
  Py.max l = Ok m -> In m l /\ forall y, In y l -> y <= m.
Proof.
  destruct l as [|x l]; simpl; [discriminate|].
  intros [= <-]. split.
  - destruct (fold_left_max_in l x) as [-> | H]; auto.
  - destruct (fold_left_max_ge l x) as [H1 H2].
    intros y [<- | Hy]; [exact H1 | now apply H2].
Qed.

Lemma max_defined (l : list Z) : l <> [] -> exists m, Py.max l = Ok m.
Proof. destruct l; [congruence | simpl; eauto]. Qed.

(** [_find_furthest_new_line] on a non-empty list of terminators: -1 when
    none occurs, and otherwise the highest index at which one occurs. *)
Lemma find_furthest_cases (t : bytes) (nls : list bytes) :
  nls <> [] ->
  exists i, _find_furthest_new_line t nls = Ok i /\
    ((i = -1 /\ forall n k, In n nls -> ~ occurs_at n t k) \/
     (exists k, i = Z.of_nat k /\
        (exists n, In n nls /\ occurs_at n t k) /\
        forall n j, In n nls -> (k < j)%nat -> ~ occurs_at n t j)).
Proof.
  intros Hne. unfold _find_furthest_new_line.
  destruct (max_defined (map (rfind t) nls)) as [m Hm].
  { destruct nls; [congruence | discriminate]. }
  exists m. split; [exact Hm|].
  apply max_spec in Hm. destruct Hm as [Hin Hge].
  apply in_map_iff in Hin. destruct Hin as [n0 [Hn0 Hin0]].
  destruct (rfind_cases t n0) as [[Hr Hno] | [k [Hr [Hocc Hmax]]]].
  - left. split; [congruence|]. intros n k Hn Hocc.
    destruct (rfind_cases t n) as [[_ Hno'] | [k' [Hr' _]]].
    + exact (Hno' k Hocc).
    + specialize (Hge (rfind t n) (in_map _ _ _ Hn)). lia.
  - right. exists k. split; [congruence|]. split; [eauto|].
    intros n j Hn Hj Hocc'.
    destruct (rfind_cases t n) as [[_ Hno'] | [k' [Hr' [_ Hmax']]]].
    + exact (Hno' j Hocc').
    + specialize (Hge (rfind t n) (in_map _ _ _ Hn)).
      apply (Hmax' j); [lia | exact Hocc'].
Qed.

End SearchFacts.

Section StripFacts.

Lemma insert_longest_first_in (x y : bytes) (l : list bytes) :
  In y (insert_longest_first x l) <-> y = x \/ In y l.
Proof.
  induction l as [|z l IH]; simpl.
  - intuition congruence.
  - destruct (length z <=? length x)%nat; simpl; [|rewrite IH];
      intuition congruence.
Qed.

Lemma sorted_longest_first_in (y : bytes) (l : list bytes) :
  In y (sorted_longest_first l) <-> In y l.
Proof.
  induction l as [|x l IH]; simpl; [tauto|].
  rewrite insert_longest_first_in, IH. intuition congruence.
Qed.

Lemma insert_longest_first_sorted (x : bytes) (l : list bytes) :
  StronglySorted longer_first l ->
  StronglySorted longer_first (insert_longest_first x l).
Proof.
  induction 1 as [|z l Hl IH Hz]; simpl.
  - constructor; constructor.
  - destruct (Nat.leb_spec (length z) (length x)).
    + constructor; [constructor; assumption|].
      constructor; [exact H|].
      rewrite Forall_forall in *. intros y Hy. specialize (Hz y Hy).
      unfold longer_first in *. lia.
    + constructor; [exact IH|].
      rewrite Forall_forall in *. intros y Hy.
      apply insert_longest_first_in in Hy. destruct Hy as [-> | Hy].
      * unfold longer_first. lia.
      * now apply Hz.
Qed.

Lemma sorted_longest_first_sorted (l : list bytes) :
  StronglySorted longer_first (sorted_longest_first l).
Proof.
  induction l; simpl; [constructor | now apply insert_longest_first_sorted].
Qed.

Lemma remove_first_match_spec (line : bytes) (l : list bytes) :
  Forall (fun n => n <> []) l ->
  StronglySorted longer_first l ->
  stripped_of l line (remove_first_match line l).
Proof.
  intros Hne Hs. induction Hs as [|n l Hl IH Hn]; simpl.
  - right. split; [reflexivity | intros n []].
  - inversion Hne as [|? ? Hn0 Hne']; subst.
    destruct (endswith line n) eqn:He.
    + apply endswith_iff in He. destruct He as [p ->].
      rewrite slice_to_suffix by assumption.
      left. exists n. split; [now left|]. split; [reflexivity|].
      intros n' [<- | Hin] _; [lia|].
      rewrite Forall_forall in Hn. exact (Hn n' Hin).
    + assert (Hno : ~ suffix_of n line).
      { intros H. apply endswith_iff in H. congruence. }
      destruct (IH Hne') as [[m [Hm [Heq Hmax]]] | [Heq Hnone]].
      * left. exists m. split; [now right|]. split; [exact Heq|].
        intros n' [<- | Hin] Hsuf; [contradiction | auto].
      * right. split; [exact Heq|].
        intros n' [<- | Hin]; auto.
Qed.

Lemma stripped_of_ext (l l' : list bytes) (buf t : bytes) :
  (forall n, In n l <-> In n l') -> stripped_of l buf t -> stripped_of l' buf t.
Proof.
  intros Hll [[n [Hn [Heq Hmax]]] | [Heq Hnone]].
  - left. exists n. split; [now apply Hll|]. split; [exact Heq|].
    intros n' Hn'. apply Hmax. now apply Hll.
  - right. split; [exact Heq|]. intros n Hn. apply Hnone. now apply Hll.
Qed.

(** [_remove_trailing_new_line] cuts off one trailing terminator, the
    longest that matches. *)
Lemma remove_trailing_spec (line : bytes) (nls : list bytes) :
  Forall (fun n => n <> []) nls ->
  stripped_of nls line (_remove_trailing_new_line line nls).
Proof.
  intros Hne. unfold _remove_trailing_new_line.
  apply stripped_of_ext with (l := sorted_longest_first nls).
  - intros n. apply sorted_longest_first_in.
  - apply remove_first_match_spec.
    + rewrite Forall_forall in *. intros n Hn. apply Hne.
      now apply sorted_longest_first_in.
    + apply sorted_longest_first_sorted.
Qed.

Lemma configured_nonempty (s : BufferWorkSpace) :
  configured s ->
  new_lines_bytes s <> [] /\ Forall (fun n => n <> []) (new_lines_bytes s).
Proof.
  unfold configured. intros ->. split.
  - discriminate.
  - destruct (encoding s); repeat constructor; discriminate.
Qed.

Lemma stripped_prefix (nls : list bytes) (buf t : bytes) :
  stripped_of nls buf t -> exists n, buf = t ++ n.
Proof.
  intros [[n [_ [H _]]] | [H _]]; [eauto | exists []; now rewrite app_nil_r].
Qed.

End StripFacts.

(** ** [yieldable] and [return_line] *)

Section LineFacts.

Lemma occurs_at_lt (n t : bytes) (k : nat) :
  n <> [] -> occurs_at n t k -> (k < length t)%nat.
Proof.
  intros Hn [Hk Hs]. apply startswith_iff in Hs. destruct Hs as [q Hq].
  assert (length (skipn k t) <> O).
  { rewrite Hq. destruct n; [congruence | simpl; lia]. }
  rewrite length_skipn in H. lia.
Qed.

Lemma occurs_at_skipn (n t : bytes) (m j : nat) :
  occurs_at n (skipn m t) j -> (m <= length t)%nat -> occurs_at n t (m + j).
Proof.
  intros [Hj Hs] Hm. rewrite length_skipn in Hj. rewrite skipn_skipn in Hs.
  split; [lia|]. now rewrite Nat.add_comm.
Qed.

Lemma slice_from_succ {A} (t : list A) (k : nat) :
  (k < length t)%nat -> slice_from t (Z.of_nat k + 1) = skipn (S k) t.
Proof.
  intros Hk. unfold slice_from, bound, len.
  destruct (Z.ltb_spec (Z.of_nat k + 1) 0); [lia|].
  f_equal. lia.
Qed.

Lemma slice_to_succ {A} (t : list A) (k : nat) :
  (k < length t)%nat -> slice_to t (Z.of_nat k + 1) = firstn (S k) t.
Proof.
  intros Hk. unfold slice_to, bound, len.
  destruct (Z.ltb_spec (Z.of_nat k + 1) 0); [lia|].
  f_equal. lia.
Qed.

(** The value of [yieldable] on a buffer that is not [None]. *)
Lemma yieldable_some (s : BufferWorkSpace) (buf : bytes) :
  configured s -> read_buffer s = Some buf ->
  let t := _remove_trailing_new_line buf (new_lines_bytes s) in
  ((exists k, _find_furthest_new_line t (new_lines_bytes s) = Ok (Z.of_nat k) /\
      (k < length t)%nat /\
      (exists n, In n (new_lines_bytes s) /\ occurs_at n t k) /\
      (forall n j, In n (new_lines_bytes s) -> (k < j)%nat -> ~ occurs_at n t j)) /\
   yieldable s = Ok true) \/
  (_find_furthest_new_line t (new_lines_bytes s) = Ok (-1) /\
   (forall n k, In n (new_lines_bytes s) -> ~ occurs_at n t k) /\
   yieldable s = Ok (read_position s =? 0)).
Proof.
  intros Hc Hb t. destruct (configured_nonempty s Hc) as [Hne Hall].
  unfold yieldable. rewrite Hb. fold t.
  destruct (find_furthest_cases t _ Hne)
    as [i [Hi [[-> Hno] | [k [-> [[n [Hn Hocc]] Hmax]]]]]]; rewrite Hi; simpl.
  - right. split; [reflexivity|]. split; [exact Hno|].
    now destruct (read_position s =? 0).
  - left. split.
    + exists k. split; [reflexivity|]. split; [|split; [eauto | exact Hmax]].
      rewrite Forall_forall in Hall.
      exact (occurs_at_lt n t k (Hall n Hn) Hocc).
    + destruct (Z.leb_spec 0 (Z.of_nat k)); [reflexivity | lia].
Qed.

End LineFacts.

(** C2, as the code has it: [yieldable] is false on an absent buffer
    ([None]).  On a buffer that is present, empty or not, one trailing
    terminator (a longest match) is stripped; the answer is true when a
    terminator occurs in what is left, and otherwise it is the test
    [read_position == 0].  A present empty buffer is therefore ready exactly
    at [read_position == 0]. *)
Theorem yieldable_spec (s : BufferWorkSpace) :
  configured s ->
  match read_buffer s with
  | None => yieldable s = Ok false
  | Some buf =>
      let t := _remove_trailing_new_line buf (new_lines_bytes s) in
      stripped_of (new_lines_bytes s) buf t /\
      (((exists n k, In n (new_lines_bytes s) /\ occurs_at n t k) /\
        yieldable s = Ok true) \/
       ((forall n k, In n (new_lines_bytes s) -> ~ occurs_at n t k) /\
        yieldable s = Ok (read_position s =? 0))) /\
      (buf = [] -> yieldable s = Ok (read_position s =? 0))
  end.
Proof.
  intros Hc. destruct (read_buffer s) as [buf|] eqn:Hb.
  - intros t. destruct (configured_nonempty s Hc) as [Hne Hall].
    pose proof (remove_trailing_spec buf _ Hall) as Hstrip. fold t in Hstrip.
    split; [exact Hstrip|].
    pose proof (yieldable_some s buf Hc Hb) as Hy0.
    cbv zeta in Hy0. fold t in Hy0.
    destruct Hy0 as [[[k [_ [_ [[n [Hn Hocc]] _]]]] Hy] | [_ [Hno Hy]]].
    + split; [left; split; [eauto | exact Hy]|].
      intros ->. apply stripped_prefix in Hstrip. destruct Hstrip as [m Hm].
      symmetry in Hm. apply app_eq_nil in Hm. destruct Hm as [Ht _].
      rewrite Forall_forall in Hall.
      pose proof (occurs_at_lt n t k (Hall n Hn) Hocc) as Hlt.
      rewrite Ht in Hlt. simpl in Hlt. lia.
    + split; [right; split; assumption | intros _; exact Hy].
  - unfold yieldable. now rewrite Hb.
Qed.

Lemma yieldable_spec_witness :
  configured sample_ready /\
  yieldable sample_ready = Ok true /\
  stripped_of (new_lines_bytes sample_ready) (bs "a" ++ [LF] ++ bs "b")
    (bs "a" ++ [LF] ++ bs "b").
Proof.
  split; [reflexivity|]. split; [reflexivity|].
  exact (proj1 (yieldable_spec sample_ready eq_refl)).
Defined.

(** C2, counterexample: the buffer is empty (present, zero bytes) and
    [yieldable] answers true.  The state is the one [read_until_yieldable]
    leaves on an empty file. *)
Lemma yieldable_true_on_empty_buffer :
  read_until_yieldable 2 (__init__ (open []) 1 utf_8) = Some (Ok empty_present) /\
  read_buffer empty_present = Some [] /\
  yieldable empty_present = Ok true.
Proof. repeat split. Qed.

(** C8: [return_line] called where [yieldable] is false raises
    [AssertionError]; it returns no line and no state. *)
Theorem return_line_asserts (s : BufferWorkSpace) :
  yieldable s = Ok false ->
  return_line s = Raise AssertionError /\
  forall r s', return_line s <> Ok (r, s').
Proof.
  intros Hy. unfold return_line. rewrite Hy. simpl.
  split; [reflexivity | discriminate].
Qed.

Lemma return_line_asserts_witness :
  yieldable (__init__ (open [LF]) 1 utf_8) = Ok false /\
  return_line (__init__ (open [LF]) 1 utf_8) = Raise AssertionError.
Proof.
  split; [reflexivity|].
  apply (return_line_asserts (__init__ (open [LF]) 1 utf_8)). reflexivity.
Defined.

(** What [return_line] returns and leaves where [yieldable] is true. *)
Lemma return_line_cases (s : BufferWorkSpace) :
  configured s ->
  yieldable s = Ok true ->
  exists buf r s',
    read_buffer s = Some buf /\
    return_line s = Ok (r, s') /\
    let t := _remove_trailing_new_line buf (new_lines_bytes s) in
    stripped_of (new_lines_bytes s) buf t /\
    ((exists k,
        (exists n, In n (new_lines_bytes s) /\ occurs_at n t k) /\
        (forall n j, In n (new_lines_bytes s) -> (k < j)%nat -> ~ occurs_at n t j) /\
        r = skipn (S k) t /\
        read_buffer s' = Some (firstn (S k) t)) \/
     ((forall n k, In n (new_lines_bytes s) -> ~ occurs_at n t k) /\
      r = t /\ read_buffer s' = None)) /\
    (forall n k, In n (new_lines_bytes s) -> ~ occurs_at n r k) /\
    (exists rest, t = rest ++ r) /\
    (new_lines_bytes s = ascii_new_lines ->
     forall p, buf = p ++ [CR; LF] -> t = p) /\
    read_position s' = read_position s /\
    new_lines_bytes s' = new_lines_bytes s.
Proof.
  intros Hc Hy.
  destruct (read_buffer s) as [buf|] eqn:Hb.
  2: { unfold yieldable in Hy. rewrite Hb in Hy. discriminate. }
  destruct (configured_nonempty s Hc) as [Hne Hall].
  pose proof (remove_trailing_spec buf _ Hall) as Hstrip.
  pose proof (yieldable_some s buf Hc Hb) as Hcases. cbv zeta in Hcases.
  set (t := _remove_trailing_new_line buf (new_lines_bytes s)) in *.
  assert (Hcrlf : new_lines_bytes s = ascii_new_lines ->
                  forall p, buf = p ++ [CR; LF] -> t = p).
  { intros Hnl p Hp. rewrite Hnl in Hstrip.
    destruct Hstrip as [[n [Hn [Heq Hmax]]] | [_ Hnone]].
    - assert (Hlen : (2 <= length n)%nat).
      { apply (Hmax [CR; LF]); [now left | now exists p]. }
      destruct Hn as [<- | [<- | [<- | []]]]; simpl in Hlen; try lia.
      rewrite Hp in Heq. now apply app_inv_tail in Heq.
    - exfalso. apply (Hnone [CR; LF]); [now left | now exists p]. }
  unfold return_line. rewrite Hy, Hb. simpl. fold t.
  destruct Hcases as [[[k [Hk [Hlt [Hocc Hmax]]]] _] | [Hk [Hno _]]];
    rewrite Hk; simpl.
  - destruct (Z.leb_spec 0 (Z.of_nat k)); [|lia].
    rewrite slice_from_succ, slice_to_succ by assumption.
    eexists buf, _, _. split; [reflexivity|]. split; [reflexivity|].
    split; [exact Hstrip|]. split.
    { left. exists k. repeat split; assumption. }
    split.
    { intros n j Hn Hj. apply occurs_at_skipn in Hj; [|lia].
      apply (Hmax n (S k + j)%nat Hn); [lia | exact Hj]. }
    split; [exists (firstn (S k) t); symmetry; apply firstn_skipn|].
    split; [exact Hcrlf|]. split; reflexivity.
  - eexists buf, _, _. split; [reflexivity|]. split; [reflexivity|].
    split; [exact Hstrip|]. split.
    { right. repeat split. exact Hno. }
    split; [exact Hno|].
    split; [exists []; reflexivity|].
    split; [exact Hcrlf|]. split; reflexivity.
Qed.

(** C3: where [yieldable] is true, [return_line] returns.  It strips one
    trailing terminator from the buffer, a longest one that matches (so a
    trailing [\r\n] goes as a unit).  When a terminator occurs in the rest
    [t], with [k] the highest index at which one occurs, the line is
    [t[k+1:]] and the buffer becomes [t[:k+1]]; when none occurs the line is
    [t] and the buffer becomes [None].  No terminator occurs in the line, and
    the line stands in the old buffer right before the stripped terminator. *)
Theorem return_line_spec (s : BufferWorkSpace) :
  configured s ->
  yieldable s = Ok true ->
  exists buf r s',
    read_buffer s = Some buf /\
    return_line s = Ok (r, s') /\
    let t := _remove_trailing_new_line buf (new_lines_bytes s) in
    stripped_of (new_lines_bytes s) buf t /\
    ((exists k,
        (exists n, In n (new_lines_bytes s) /\ occurs_at n t k) /\
        (forall n j, In n (new_lines_bytes s) -> (k < j)%nat -> ~ occurs_at n t j) /\
        r = skipn (S k) t /\
        read_buffer s' = Some (firstn (S k) t)) \/
     ((forall n k, In n (new_lines_bytes s) -> ~ occurs_at n t k) /\
      r = t /\ read_buffer s' = None)) /\
    (forall n k, In n (new_lines_bytes s) -> ~ occurs_at n r k) /\
    (exists rest, t = rest ++ r) /\
    (new_lines_bytes s = ascii_new_lines ->
     forall p, buf = p ++ [CR; LF] -> t = p) /\
    read_position s' = read_position s /\
    new_lines_bytes s' = new_lines_bytes s.
Proof. apply return_line_cases. Qed.

Lemma return_line_spec_witness :
  configured sample_ready /\ yieldable sample_ready = Ok true /\
  exists buf r s',
    read_buffer sample_ready = Some buf /\
    return_line sample_ready = Ok (r, s') /\
    (forall n k, In n (new_lines_bytes sample_ready) -> ~ occurs_at n r k) /\
    read_position s' = read_position sample_ready.
Proof.
  split; [reflexivity|]. split; [reflexivity|].
  destruct (return_line_spec sample_ready eq_refl eq_refl)
    as [buf [r [s' [Hb [Hr [_ [_ [Hfree [_ [_ [Hpos _]]]]]]]]]]].
  exists buf, r, s'. repeat split; assumption.
Defined.

(** ** The next read *)

Section ReadFacts.

Lemma read_seek_one (f : file) (q : Z) :
  read (seek f q) 1 =
  Ok (file_byte (data f) q,
      {| data := data f; offset := q + len (file_byte (data f) q) |}).
Proof. reflexivity. Qed.

Lemma find_from_single (n : bytes) (x : byte) (i : Z) :
  (~ In x n -> find_from i n [x] = -1) /\
  (hd_error n = Some x -> find_from i n [x] = i) /\
  (In x n -> hd_error n <> Some x -> i + 1 <= find_from i n [x]) /\
  (In x n -> i <= find_from i n [x]).
Proof.
  revert i. induction n as [|y n IH]; intros i.
  - simpl. repeat split; try tauto; discriminate.
  - cbn [find_from startswith].
    destruct (Byte.eqb y x) eqn:E.
    + apply byte_dec_bl in E. subst y. simpl.
      repeat split; intros; try lia.
      * exfalso. apply H. now left.
      * exfalso. now apply H0.
    + pose proof (eqb_false E) as Hne. simpl.
      destruct (IH (i + 1)) as [H1 [H2 [H3 H4]]].
      repeat split.
      * intros Hn. apply H1. intros Hin. apply Hn. now right.
      * intros [= ->]. congruence.
      * intros [-> | Hin] _; [congruence|]. specialize (H4 Hin). lia.
      * intros [-> | Hin]; [congruence|]. specialize (H4 Hin). lia.
Qed.

(** What [n.find(b) >= 1] says of a single byte [b]: it is in [n] and [n]
    does not begin with it. *)
Lemma find_single_ge_1 (n : bytes) (x : byte) :
  (1 <=? find n [x]) = true <-> In x n /\ hd_error n <> Some x.
Proof.
  unfold find. destruct (find_from_single n x 0) as [H1 [H2 [H3 H4]]].
  rewrite Z.leb_le. split.
  - intros Hge. assert (Hin : In x n).
    { destruct (in_dec byte_eq_dec x n) as [Hin | Hnin]; [exact Hin|].
      rewrite (H1 Hnin) in Hge. lia. }
    split; [exact Hin|]. intros Hhd. rewrite (H2 Hhd) in Hge. lia.
  - intros [Hin Hhd]. exact (H3 Hin Hhd).
Qed.

Lemma partially_read_single (x : byte) (nls : list bytes) :
  _is_partially_read_new_line [x] nls = true <->
  exists n, In n nls /\ In x n /\ hd_error n <> Some x.
Proof.
  unfold _is_partially_read_new_line. rewrite existsb_exists.
  split; intros [n [Hn H]]; exists n; (split; [exact Hn|]);
    now apply find_single_ge_1.
Qed.

Lemma partially_read_nothing (nls : list bytes) :
  _is_partially_read_new_line [] nls = false.
Proof.
  unfold _is_partially_read_new_line. induction nls as [|n nls IH]; simpl.
  - reflexivity.
  - rewrite IH. unfold find. destruct n; reflexivity.
Qed.

Lemma walk_back_spec (turns : nat) (f : file) (seek0 rs : Z) (nls : list bytes) :
  (Z.to_nat seek0 <= turns)%nat ->
  exists f' seek' rs',
    walk_back turns f seek0 rs nls = Ok (f', (seek', rs')) /\
    data f' = data f /\
    seek' <= seek0 /\ (0 <= seek0 -> 0 <= seek') /\
    rs' = rs + (seek0 - seek') /\
    (forall q, seek' < q <= seek0 ->
       _is_partially_read_new_line (file_byte (data f) q) nls = true) /\
    (seek' <= 0 \/
     _is_partially_read_new_line (file_byte (data f) seek') nls = false).
Proof.
  revert f seek0 rs. induction turns as [|turns IH]; intros f seek0 rs Hturns.
  - simpl. exists f, seek0, rs.
    split; [reflexivity|]. split; [reflexivity|].
    split; [lia|]. split; [lia|]. split; [lia|].
    split; [intros q Hq; lia | left; lia].
  - cbn [walk_back]. destruct (Z.ltb_spec 0 seek0) as [Hpos | Hnpos].
    + rewrite read_seek_one. cbn [bind].
      destruct (_is_partially_read_new_line (file_byte (data f) seek0) nls) eqn:Hp.
      * match goal with |- context [walk_back turns ?g _ _ _] =>
          destruct (IH g (seek0 - 1) (rs + 1) ltac:(lia))
            as [f' [seek' [rs' [Hw [Hd [Hle [Hge [Hrs [Hall Hstop]]]]]]]]]
        end.
        exists f', seek', rs'. simpl in Hd, Hall, Hstop.
        split; [exact Hw|]. split; [exact Hd|].
        split; [lia|]. split; [lia|]. split; [lia|].
        split; [|exact Hstop].
        intros q Hq. destruct (Z.eq_dec q seek0) as [-> | Hne];
          [exact Hp | apply Hall; lia].
      * eexists _, seek0, rs.
        split; [reflexivity|]. split; [reflexivity|].
        split; [lia|]. split; [lia|]. split; [lia|].
        split; [intros q Hq; lia | now right].
    + exists f, seek0, rs.
      split; [reflexivity|]. split; [reflexivity|].
      split; [lia|]. split; [lia|]. split; [lia|].
      split; [intros q Hq; lia | left; lia].
Qed.

(** The seek offset and the read length [_get_what_to_read_next] computes. *)
Lemma what_to_read_next_cases (f : file) (previously_read_position chunk : Z)
  (nls : list bytes) :
  let seek0 := Z.max (previously_read_position - chunk) 0 in
  exists f' seek' size',
    _get_what_to_read_next f previously_read_position chunk nls
      = Ok (f', (seek', size')) /\
    data f' = data f /\
    0 <= seek' <= seek0 /\
    (forall q, seek' < q <= seek0 ->
       _is_partially_read_new_line (file_byte (data f) q) nls = true) /\
    (seek' = 0 \/
     _is_partially_read_new_line (file_byte (data f) seek') nls = false) /\
    size' = Z.min (previously_read_position - seek') (chunk + (seek0 - seek')) /\
    (forall x, _is_partially_read_new_line [x] nls = true <->
               exists n, In n nls /\ In x n /\ hd_error n <> Some x) /\
    _is_partially_read_new_line [] nls = false.
Proof.
  intros seek0. unfold _get_what_to_read_next. fold seek0.
  destruct (walk_back_spec (Z.to_nat seek0) f seek0 chunk nls (Nat.le_refl _))
    as [f' [seek' [rs' [Hw [Hd [Hle [Hge [Hrs [Hall Hstop]]]]]]]]].
  rewrite Hw. cbn [bind].
  exists f', seek', (Z.min (previously_read_position - seek') rs').
  assert (0 <= seek0) by (unfold seek0; lia).
  split; [reflexivity|]. split; [exact Hd|]. split; [lia|].
  split; [exact Hall|]. split.
  { destruct Hstop as [Hz | Hs]; [left; lia | now right]. }
  split; [now rewrite Hrs|].
  split; [intros x; apply partially_read_single | apply partially_read_nothing].
Qed.

End ReadFacts.

(** C4, as the code has it: the seek offset starts at
    [max(previously_read_position - chunk_size, 0)] with read length
    [chunk_size]; it is walked back one byte at a time, the read length
    growing by one each step, over the offsets above 0 whose file byte
    [_is_partially_read_new_line] accepts, and stops at the first offset
    that is 0 or whose byte is not accepted; the read length is then
    [min(previously_read_position - offset, read length)].  A byte is
    accepted when [find] locates it at index >= 1 of some terminator: it is
    in that terminator and the terminator does not begin with it. *)
Theorem what_to_read_next_spec (f : file) (previously_read_position chunk : Z)
  (nls : list bytes) :
  let seek0 := Z.max (previously_read_position - chunk) 0 in
  exists f' seek' size',
    _get_what_to_read_next f previously_read_position chunk nls
      = Ok (f', (seek', size')) /\
    data f' = data f /\
    0 <= seek' <= seek0 /\
    (forall q, seek' < q <= seek0 ->
       _is_partially_read_new_line (file_byte (data f) q) nls = true) /\
    (seek' = 0 \/
     _is_partially_read_new_line (file_byte (data f) seek') nls = false) /\
    size' = Z.min (previously_read_position - seek') (chunk + (seek0 - seek')) /\
    (forall x, _is_partially_read_new_line [x] nls = true <->
               exists n, In n nls /\ In x n /\ hd_error n <> Some x) /\
    _is_partially_read_new_line [] nls = false.
Proof. apply what_to_read_next_cases. Qed.

(** C4, counterexample: with the terminators of UTF-16-BE the byte at the
    first offset, [x00], stands at index 2 of the terminator
    [x00 x0d x00 x0a], yet the code does not walk back: [find] locates it at
    index 0.  The computation worded as the specification is walks back to offset 1. *)
Lemma what_to_read_next_utf_16_be :
  let nls := map (encode utf_16_be) new_lines in
  let f := open [x00; "a"%byte; x00; "b"%byte] in
  _get_what_to_read_next f 4 2 nls
    = Ok ({| data := data f; offset := 3 |}, (2, 2)) /\
  spec_what_to_read_next (data f) 4 2 nls = (1, 3) /\
  file_byte (data f) 2 = [x00] /\
  In [x00; CR; x00; LF] nls /\
  nth_error [x00; CR; x00; LF] 2 = Some x00 /\
  later_byte_of_terminator [x00] nls = true /\
  _is_partially_read_new_line [x00] nls = false.
Proof. cbv zeta. repeat split. now left. Qed.

(** ** One turn of the read loop *)

Section LoopFacts.

(** [_get_next_chunk] below a position at or above 0, with a chunk size at
    or above 0: no read raises, and the chunk is the file from the offset
    returned up to the position. *)
Lemma next_chunk_cases (f : file) (previously_read_position chunk : Z)
  (nls : list bytes) :
  0 <= previously_read_position -> 0 <= chunk ->
  exists f' seek',
    _get_next_chunk f previously_read_position chunk nls
      = Ok (f', (between (data f) seek' previously_read_position, seek')) /\
    data f' = data f /\
    offset f' = seek' + len (between (data f) seek' previously_read_position) /\
    0 <= seek' <= Z.max (previously_read_position - chunk) 0 /\
    (seek' = 0 \/
     _is_partially_read_new_line (file_byte (data f) seek') nls = false).
Proof.
  intros Hpos Hchunk. unfold _get_next_chunk.
  destruct (what_to_read_next_cases f previously_read_position chunk nls)
    as [f' [seek' [size' [Hw [Hd [Hrange [_ [Hstop [Hsize _]]]]]]]]].
  rewrite Hw. cbn [bind].
  assert (Hsz : size' = previously_read_position - seek') by lia.
  unfold read, seek. cbn [data offset]. rewrite Hd.
  destruct (Z.ltb_spec size' (-1)) as [Hneg | _]; [lia|].
  destruct (Z.ltb_spec size' 0) as [Hneg | _]; [lia|].
  cbn [bind]. rewrite Hsz.
  fold (between (data f) seek' previously_read_position).
  eexists _, seek'. split; [reflexivity|]. cbn [data offset].
  split; [reflexivity|]. split; [reflexivity|]. split; [exact Hrange | exact Hstop].
Qed.

Lemma read_once_spec (s : BufferWorkSpace) :
  0 <= read_position s -> 0 < chunk_size s ->
  exists seek',
    0 <= seek' <= read_position s /\
    (0 < read_position s -> seek' < read_position s) /\
    (seek' = 0 \/
     _is_partially_read_new_line (file_byte (data (fp s)) seek')
       (new_lines_bytes s) = false) /\
    read_position (read_once s) = seek' /\
    data (fp (read_once s)) = data (fp s) /\
    chunk_size (read_once s) = chunk_size s /\
    encoding (read_once s) = encoding s /\
    new_lines_bytes (read_once s) = new_lines_bytes s /\
    read_buffer (read_once s) =
      Some (between (data (fp s)) seek' (read_position s) ++ buffered s).
Proof.
  intros Hpos Hchunk. unfold read_once.
  destruct (next_chunk_cases (fp s) (read_position s) (chunk_size s)
              (new_lines_bytes s) Hpos ltac:(lia))
    as [f' [seek' [Hw [Hd [_ [Hrange Hstop]]]]]].
  rewrite Hw. exists seek'.
  unfold add_to_buffer, set_fp, buffered. cbn.
  split; [lia|]. split; [lia|]. split; [exact Hstop|].
  split; [reflexivity|]. split; [exact Hd|].
  repeat (split; [reflexivity|]).
  destruct (read_buffer s); [reflexivity | now rewrite app_nil_r].
Qed.

(** With a position at or above 0 and a positive chunk size the read of a
    turn does not raise. *)
Lemma read_until_yieldable_turn (fuel : nat) (s : BufferWorkSpace) :
  0 <= read_position s -> 0 < chunk_size s ->
  yieldable s = Ok false ->
  read_until_yieldable (S fuel) s = read_until_yieldable fuel (read_once s).
Proof.
  intros Hpos Hchunk Hy. cbn [read_until_yieldable]. rewrite Hy.
  unfold read_once.
  destruct (next_chunk_cases (fp s) (read_position s) (chunk_size s)
              (new_lines_bytes s) Hpos ltac:(lia)) as [f' [seek' [Hw _]]].
  rewrite Hw. reflexivity.
Qed.

Lemma yieldable_total (s : BufferWorkSpace) :
  configured s -> exists b, yieldable s = Ok b.
Proof.
  intros Hc. destruct (read_buffer s) as [buf|] eqn:Hb.
  - destruct (yieldable_some s buf Hc Hb) as [[_ H] | [_ [_ H]]]; eauto.
  - exists false. unfold yieldable. now rewrite Hb.
Qed.

Lemma yieldable_at_zero (s : BufferWorkSpace) :
  configured s -> read_position s = 0 -> read_buffer s <> None ->
  yieldable s = Ok true.
Proof.
  intros Hc Hz Hb. destruct (read_buffer s) as [buf|] eqn:Hbuf; [|congruence].
  destruct (yieldable_some s buf Hc Hbuf) as [[_ H] | [_ [_ H]]];
    [exact H | now rewrite H, Hz].
Qed.

Lemma read_once_well_formed (s : BufferWorkSpace) :
  well_formed s ->
  well_formed (read_once s) /\
  read_position (read_once s) <= read_position s /\
  data (fp (read_once s)) = data (fp s) /\
  chunk_size (read_once s) = chunk_size s /\
  encoding (read_once s) = encoding s.
Proof.
  intros [Hc [Hchunk Hpos]].
  destruct (read_once_spec s (proj1 Hpos) Hchunk)
    as [seek' [Hr [_ [_ [Hp [Hd [Hch [He [Hn _]]]]]]]]].
  unfold well_formed, configured, _get_file_size, st_size in *.
  rewrite Hp, Hd, Hch, He, Hn.
  repeat split; try assumption; lia.
Qed.

Lemma read_until_yieldable_unfold (fuel : nat) (s : BufferWorkSpace) :
  read_until_yieldable (S fuel) s =
  match yieldable s with
  | Raise e => Some (Raise e)
  | Ok true => Some (Ok s)
  | Ok false =>
      match _get_next_chunk (fp s) (read_position s) (chunk_size s)
              (new_lines_bytes s) with
      | Raise e => Some (Raise e)
      | Ok _ => read_until_yieldable fuel (read_once s)
      end
  end.
Proof.
  cbn [read_until_yieldable]. unfold read_once.
  destruct (yieldable s) as [[|]|]; try reflexivity.
  destruct (_get_next_chunk _ _ _ _) as [[f' [c p]]|]; reflexivity.
Qed.

(** The loop returns after at most [read_position + 1] turns. *)
Lemma read_loop_terminates (m : nat) (s : BufferWorkSpace) :
  well_formed s -> (Z.to_nat (read_position s) <= m)%nat ->
  exists n,
    (n <= Z.to_nat (read_position s) + 1)%nat /\
    yieldable (Nat.iter n read_once s) = Ok true /\
    (forall k, (k < n)%nat -> yieldable (Nat.iter k read_once s) = Ok false) /\
    forall fuel, (n < fuel)%nat ->
      read_until_yieldable fuel s = Some (Ok (Nat.iter n read_once s)).
Proof.
  revert s. induction m as [|m IH]; intros s Hwf Hm.
  - destruct Hwf as [Hc [Hchunk Hpos]].
    assert (Hz : read_position s = 0) by lia.
    destruct (yieldable_total s Hc) as [[|] Hy].
    + exists O. split; [lia|]. split; [exact Hy|]. split; [intros k Hk; lia|].
      intros [|fuel] Hf; [lia|]. rewrite read_until_yieldable_unfold, Hy.
      reflexivity.
    + destruct (read_once_spec s (proj1 Hpos) Hchunk)
        as [seek' [Hr [_ [_ [Hp [_ [_ [He [Hn Hb]]]]]]]]].
      assert (Hy1 : yieldable (read_once s) = Ok true).
      { apply yieldable_at_zero.
        - unfold configured in *. now rewrite Hn, He.
        - lia.
        - rewrite Hb. discriminate. }
      exists 1%nat. split; [lia|]. split; [exact Hy1|]. split.
      { intros k Hk. assert (k = O) by lia. subst k. exact Hy. }
      intros [|[|fuel]] Hf; try lia.
      rewrite (read_until_yieldable_turn _ s (proj1 Hpos) Hchunk Hy).
      rewrite read_until_yieldable_unfold. simpl Nat.iter. now rewrite Hy1.
  - destruct (yieldable_total s (proj1 Hwf)) as [[|] Hy].
    + exists O. split; [lia|]. split; [exact Hy|]. split; [intros k Hk; lia|].
      intros [|fuel] Hf; [lia|]. rewrite read_until_yieldable_unfold, Hy.
      reflexivity.
    + destruct (Z.eq_dec (read_position s) 0) as [Hz | Hnz].
      * apply IH; [exact Hwf | lia].
      * pose proof Hwf as [Hc [Hchunk Hpos]].
        destruct (read_once_spec s (proj1 Hpos) Hchunk)
          as [seek' [Hr [Hlt [_ [Hp _]]]]].
        destruct (read_once_well_formed s Hwf) as [Hwf1 _].
        destruct (IH (read_once s) Hwf1 ltac:(rewrite Hp; lia))
          as [n [Hn [Hyn [Hbefore Hrun]]]].
        exists (S n). rewrite Nat.iter_succ_r.
        split; [rewrite Hp in Hn; lia|]. split; [exact Hyn|]. split.
        { intros [|k] Hk; [exact Hy|].
          rewrite Nat.iter_succ_r. apply Hbefore. lia. }
        intros [|fuel] Hf; [lia|].
        rewrite (read_until_yieldable_turn _ s (proj1 Hpos) Hchunk Hy).
        apply Hrun. lia.
Qed.

Lemma iter_read_once_well_formed (k : nat) (s : BufferWorkSpace) :
  well_formed s ->
  well_formed (Nat.iter k read_once s) /\
  read_position (Nat.iter k read_once s) <= read_position s /\
  data (fp (Nat.iter k read_once s)) = data (fp s) /\
  chunk_size (Nat.iter k read_once s) = chunk_size s /\
  encoding (Nat.iter k read_once s) = encoding s.
Proof.
  intros Hwf. induction k as [|k [IH1 [IH2 [IH3 [IH4 IH5]]]]]; simpl.
  - repeat split; try apply Hwf; lia.
  - destruct (read_once_well_formed _ IH1) as [H1 [H2 [H3 [H4 H5]]]].
    split; [exact H1|]. split; [lia|].
    split; [congruence|]. split; congruence.
Qed.

End LoopFacts.

(** ** Reachable states *)

Section ReachFacts.

Lemma return_line_state (s s' : BufferWorkSpace) (r : bytes) :
  return_line s = Ok (r, s') ->
  yieldable s = Ok true /\ exists b, s' = set_read_buffer s b.
Proof.
  unfold return_line. destruct (yieldable s) as [[|]|]; simpl; try discriminate.
  destruct (read_buffer s) as [buf|]; [|discriminate].
  destruct (_find_furthest_new_line _ _) as [i|]; simpl; [|discriminate].
  destruct (0 <=? i); intros [= <- <-]; eauto.
Qed.

Lemma read_until_yieldable_iter (fuel : nat) (s s' : BufferWorkSpace) :
  read_until_yieldable fuel s = Some (Ok s') ->
  exists n, s' = Nat.iter n read_once s /\ yieldable s' = Ok true.
Proof.
  revert s. induction fuel as [|fuel IH]; intros s; [discriminate|].
  rewrite read_until_yieldable_unfold.
  destruct (yieldable s) as [[|]|] eqn:Hy; try discriminate.
  - intros [= <-]. exists O. split; [reflexivity | exact Hy].
  - destruct (_get_next_chunk _ _ _ _) as [chunk|]; [|discriminate].
    intros H. destruct (IH _ H) as [n [Hn Hy']].
    exists (S n). rewrite Nat.iter_succ_r. split; assumption.
Qed.

Lemma step_well_formed (s s' : BufferWorkSpace) :
  well_formed s -> step s s' ->
  well_formed s' /\
  read_position s' <= read_position s /\
  data (fp s') = data (fp s) /\
  chunk_size s' = chunk_size s /\
  encoding s' = encoding s.
Proof.
  intros Hwf Hstep. destruct Hstep as [s s' fuel Hrun | s s' r Hret].
  - destruct (read_until_yieldable_iter _ _ _ Hrun) as [n [-> _]].
    now apply iter_read_once_well_formed.
  - destruct (return_line_state _ _ _ Hret) as [_ [b ->]].
    unfold well_formed, configured in *. simpl.
    repeat split; try apply Hwf; lia.
Qed.

Lemma init_well_formed (f : file) (chunk : Z) (e : Encoding) :
  0 < chunk -> well_formed (__init__ f chunk e).
Proof.
  intros Hc. unfold well_formed, configured, __init__, _get_file_size, st_size.
  simpl. repeat split; try assumption; try lia. apply len_nonneg.
Qed.

Lemma reachable_well_formed (f : file) (chunk : Z) (e : Encoding)
  (s : BufferWorkSpace) :
  0 < chunk -> reachable f chunk e s ->
  well_formed s /\
  read_position s <= _get_file_size f /\
  data (fp s) = data f /\
  chunk_size s = chunk /\
  encoding s = e.
Proof.
  intros Hc Hr. induction Hr as [|s s' Hr [IH1 [IH2 [IH3 [IH4 IH5]]]] Hstep].
  - split; [now apply init_well_formed|].
    simpl. repeat split. lia.
  - destruct (step_well_formed s s' IH1 Hstep) as [H1 [H2 [H3 [H4 H5]]]].
    split; [exact H1|]. split; [lia|].
    split; [congruence|]. split; congruence.
Qed.

End ReachFacts.

(** C7: in every state reachable from construction by calls of
    [read_until_yieldable] and [return_line], with a positive chunk size,
    [0 <= read_position <= file size], and no such call raises
    [read_position]. *)
Theorem read_position_bounds (f : file) (chunk : Z) (e : Encoding)
  (s : BufferWorkSpace) :
  0 < chunk ->
  reachable f chunk e s ->
  0 <= read_position s <= _get_file_size f /\
  read_position (__init__ f chunk e) = _get_file_size f /\
  forall s', step s s' -> read_position s' <= read_position s.
Proof.
  intros Hc Hr.
  destruct (reachable_well_formed f chunk e s Hc Hr) as [Hwf [Hle _]].
  split; [destruct Hwf as [_ [_ Hpos]]; lia|].
  split; [reflexivity|].
  intros s' Hstep. now apply (step_well_formed s s' Hwf Hstep).
Qed.

Lemma read_position_bounds_witness :
  let f := open (bs "one" ++ [LF] ++ bs "two") in
  exists s,
    read_until_yieldable 5 (__init__ f 2 utf_8) = Some (Ok s) /\
    read_position s = 2 /\ _get_file_size f = 7 /\
    0 <= read_position s <= _get_file_size f.
Proof.
  intros f. exists (Nat.iter 2 read_once (__init__ f 2 utf_8)).
  assert (Hrun : read_until_yieldable 5 (__init__ f 2 utf_8)
                 = Some (Ok (Nat.iter 2 read_once (__init__ f 2 utf_8))))
    by (vm_compute; reflexivity).
  split; [exact Hrun|]. split; [vm_compute; reflexivity|].
  split; [vm_compute; reflexivity|].
  refine (proj1 (read_position_bounds f 2 utf_8 _ _ _)); [reflexivity|].
  eapply reach_step; [apply reach_init|].
  apply step_fill with (fuel := 5%nat). exact Hrun.
Defined.

(** C6: [read_until_yieldable] returns from every reachable state of a
    buffer with a positive chunk size, after at most [read_position + 1]
    turns of its loop and in a state where [yieldable] is true.  In every
    state the loop passes, a turn at [read_position > 0] lowers
    [read_position] strictly and keeps it at or above 0, a turn at
    [read_position = 0] reads no byte, and after a turn that leaves
    [read_position] at 0 [yieldable] is true. *)
Theorem read_until_yieldable_terminates (f : file) (chunk : Z) (e : Encoding)
  (s : BufferWorkSpace) :
  0 < chunk ->
  reachable f chunk e s ->
  exists n,
    (n <= Z.to_nat (read_position s) + 1)%nat /\
    (forall fuel, (n < fuel)%nat ->
       read_until_yieldable fuel s = Some (Ok (Nat.iter n read_once s))) /\
    yieldable (Nat.iter n read_once s) = Ok true /\
    forall k,
      let sk := Nat.iter k read_once s in
      0 <= read_position (read_once sk) <= read_position sk /\
      (0 < read_position sk -> read_position (read_once sk) < read_position sk) /\
      (read_position sk = 0 -> read_buffer (read_once sk) = Some (buffered sk)) /\
      (read_position (read_once sk) = 0 -> yieldable (read_once sk) = Ok true).
Proof.
  intros Hc Hr.
  destruct (reachable_well_formed f chunk e s Hc Hr) as [Hwf _].
  destruct (read_loop_terminates _ s Hwf (Nat.le_refl _))
    as [n [Hn [Hy [_ Hrun]]]].
  exists n. split; [exact Hn|]. split; [exact Hrun|]. split; [exact Hy|].
  intros k sk.
  destruct (iter_read_once_well_formed k s Hwf) as [Hwfk _]. fold sk in Hwfk.
  pose proof Hwfk as [Hck [Hchk Hposk]].
  destruct (read_once_spec sk (proj1 Hposk) Hchk)
    as [seek' [Hrange [Hlt [_ [Hp [_ [_ [He [Hnl Hb]]]]]]]]].
  rewrite Hp. split; [lia|]. split; [exact Hlt|]. split.
  - intros Hz. rewrite Hb, Hz. replace seek' with 0 by lia. reflexivity.
  - intros Hz. apply yieldable_at_zero.
    + unfold configured in *. now rewrite Hnl, He.
    + now rewrite Hp.
    + rewrite Hb. discriminate.
Qed.

Lemma read_until_yieldable_terminates_witness :
  let s := __init__ (open (bs "one" ++ [LF] ++ bs "two")) 2 utf_8 in
  0 < 2 /\
  reachable (open (bs "one" ++ [LF] ++ bs "two")) 2 utf_8 s /\
  exists n, (n <= 8)%nat /\
    read_until_yieldable (S n) s = Some (Ok (Nat.iter n read_once s)) /\
    yieldable (Nat.iter n read_once s) = Ok true.
Proof.
  intros s. split; [reflexivity|]. split; [apply reach_init|].
  destruct (read_until_yieldable_terminates
              (open (bs "one" ++ [LF] ++ bs "two")) 2 utf_8 s
              eq_refl (reach_init _ _ _))
    as [n [Hn [Hrun [Hy _]]]].
  exists n. split; [exact Hn|]. split; [apply Hrun; lia | exact Hy].
Defined.

(** ** The lines of a file, read forward *)

Section ForwardFacts.

Lemma is_nl_false (a : byte) :
  is_nl a = false <-> Byte.eqb a CR = false /\ Byte.eqb a LF = false.
Proof. unfold is_nl. apply orb_false_iff. Qed.

Lemma is_nl_true (a : byte) : is_nl a = true <-> a = CR \/ a = LF.
Proof.
  unfold is_nl. rewrite orb_true_iff. split.
  - intros [H | H]; apply byte_dec_bl in H; auto.
  - intros [-> | ->]; [left | right]; reflexivity.
Qed.

Lemma sf_crlf (cur l : bytes) :
  split_forward cur (CR :: LF :: l) = (cur, [CR; LF]) :: split_forward [] l.
Proof. reflexivity. Qed.

Lemma sf_lf (cur l : bytes) :
  split_forward cur (LF :: l) = (cur, [LF]) :: split_forward [] l.
Proof. reflexivity. Qed.

Lemma sf_cr (cur l : bytes) :
  hd_error l <> Some LF ->
  split_forward cur (CR :: l) = (cur, [CR]) :: split_forward [] l.
Proof.
  intros Hl. cbn [split_forward]. change (Byte.eqb CR CR) with true. cbv iota.
  destruct l as [|y l]; [reflexivity|].
  destruct (Byte.eqb y LF) eqn:E; [|reflexivity].
  apply byte_dec_bl in E. subst y. now contradiction Hl.
Qed.

Lemma sf_other (cur : bytes) (a : byte) (l : bytes) :
  is_nl a = false ->
  split_forward cur (a :: l) = split_forward (cur ++ [a]) l.
Proof.
  intros Ha. apply is_nl_false in Ha. destruct Ha as [H1 H2].
  cbn [split_forward]. now rewrite H1, H2.
Qed.

(** Induction over a file along its terminators. *)
Lemma lines_ind (Q : bytes -> Prop) :
  Q [] ->
  (forall l, Q l -> Q (CR :: LF :: l)) ->
  (forall l, hd_error l <> Some LF -> Q l -> Q (CR :: l)) ->
  (forall l, Q l -> Q (LF :: l)) ->
  (forall a l, is_nl a = false -> Q l -> Q (a :: l)) ->
  forall l, Q l.
Proof.
  intros Hnil Hcrlf Hcr Hlf Hother l.
  assert (H : forall n l, (length l <= n)%nat -> Q l).
  { clear l. induction n as [|n IH]; intros l Hl.
    - destruct l; [exact Hnil | simpl in Hl; lia].
    - destruct l as [|a l]; [exact Hnil|]. simpl in Hl.
      destruct (is_nl a) eqn:Ha.
      + apply is_nl_true in Ha. destruct Ha as [-> | ->].
        * destruct l as [|b l].
          -- apply Hcr; [discriminate | exact Hnil].
          -- destruct (byte_eq_dec b LF) as [-> | Hb].
             ++ apply Hcrlf, IH. simpl in Hl. lia.
             ++ apply Hcr; [simpl; congruence | apply IH; lia].
        * apply Hlf, IH. lia.
      + apply Hother; [exact Ha | apply IH; lia]. }
  exact (H (length l) l (Nat.le_refl _)).
Qed.

(** The lines with their terminators make up the file. *)
Lemma split_forward_concat (content cur : bytes) :
  concat (map with_terminator (split_forward cur content)) = cur ++ content.
Proof.
  revert cur. induction content as [|l IH|l Hl IH|l IH|a l Ha IH] using lines_ind;
    intros cur.
  - simpl. destruct cur; simpl; now rewrite ?app_nil_r.
  - rewrite sf_crlf. simpl. rewrite IH. unfold with_terminator. simpl.
    now rewrite <- app_assoc.
  - rewrite sf_cr by assumption. simpl. rewrite IH. unfold with_terminator.
    simpl. now rewrite <- app_assoc.
  - rewrite sf_lf. simpl. rewrite IH. unfold with_terminator. simpl.
    now rewrite <- app_assoc.
  - rewrite sf_other by assumption. rewrite IH. now rewrite <- app_assoc.
Qed.

(** Every line is free of terminator bytes; every terminator is one of the
    three, except that the last entry may have none, its line then being
    non-empty. *)
Lemma split_forward_shape (content cur : bytes) :
  no_nl cur ->
  Forall (fun p => no_nl (fst p)) (split_forward cur content) /\
  exists front tail,
    split_forward cur content = front ++ tail /\
    Forall (fun p => In (snd p) ascii_new_lines) front /\
    (tail = [] \/ exists l, tail = [(l, [])] /\ l <> []).
Proof.
  revert cur. induction content as [|l IH|l Hl IH|l IH|a l Ha IH] using lines_ind;
    intros cur Hcur.
  - simpl. destruct cur as [|c cur].
    + split; [constructor|]. exists [], []. repeat split; auto.
    + split; [constructor; [exact Hcur | constructor]|].
      exists [], [(c :: cur, [])]. split; [reflexivity|]. split; [constructor|].
      right. eexists. split; [reflexivity | discriminate].
  - rewrite sf_crlf.
    destruct (IH [] ltac:(constructor)) as [H1 [front [tail [H2 [H3 H4]]]]].
    split; [constructor; assumption|].
    exists ((cur, [CR; LF]) :: front), tail. rewrite H2.
    split; [reflexivity|]. split; [|exact H4].
    constructor; [simpl; auto | exact H3].
  - rewrite sf_cr by assumption.
    destruct (IH [] ltac:(constructor)) as [H1 [front [tail [H2 [H3 H4]]]]].
    split; [constructor; assumption|].
    exists ((cur, [CR]) :: front), tail. rewrite H2.
    split; [reflexivity|]. split; [|exact H4].
    constructor; [simpl; auto | exact H3].
  - rewrite sf_lf.
    destruct (IH [] ltac:(constructor)) as [H1 [front [tail [H2 [H3 H4]]]]].
    split; [constructor; assumption|].
    exists ((cur, [LF]) :: front), tail. rewrite H2.
    split; [reflexivity|]. split; [|exact H4].
    constructor; [simpl; auto | exact H3].
  - rewrite sf_other by assumption. apply IH.
    apply Forall_app. split; [exact Hcur | constructor; [exact Ha | constructor]].
Qed.

(** A last line without terminator bytes, followed by its terminator. *)
Lemma split_forward_last (l term cur : bytes) :
  no_nl l ->
  In term ascii_new_lines \/ (term = [] /\ cur ++ l <> []) ->
  split_forward cur (l ++ term) = [(cur ++ l, term)].
Proof.
  intros Hl. revert cur. induction Hl as [|a l Ha Hl IH]; intros cur Hterm.
  - rewrite app_nil_r. simpl.
    destruct Hterm as [[<- | [<- | [<- | []]]] | [-> Hne]]; try reflexivity.
    simpl. rewrite app_nil_r in Hne. destruct cur; [congruence | reflexivity].
  - simpl app. rewrite sf_other by assumption. rewrite IH.
    + now rewrite <- app_assoc.
    + destruct Hterm as [H | [-> Hne]]; [now left | right].
      split; [reflexivity|]. now rewrite <- app_assoc.
Qed.

(** A file cut after a terminator: the lines of the two parts, one after the
    other, unless the cut falls inside a [\r\n]. *)
Lemma split_forward_app (front : bytes) (x : byte) (back cur : bytes) :
  is_nl x = true ->
  ~ (x = CR /\ hd_error back = Some LF) ->
  split_forward cur (front ++ x :: back) =
  split_forward cur (front ++ [x]) ++ split_forward [] back.
Proof.
  intros Hx Hcut. apply is_nl_true in Hx. revert cur.
  induction front as [|l IH|l Hl IH|l IH|a l Ha IH] using lines_ind; intros cur.
  - rewrite !app_nil_l. destruct Hx as [-> | ->].
    + rewrite (sf_cr cur back) by (intros H; apply Hcut; now split).
      rewrite (sf_cr cur []) by discriminate. reflexivity.
    + rewrite !sf_lf. reflexivity.
  - rewrite <- !app_comm_cons. rewrite !sf_crlf, IH. reflexivity.
  - destruct l as [|b l].
    + rewrite <- !app_comm_cons, !app_nil_l. destruct Hx as [-> | ->].
      * rewrite (sf_cr cur (CR :: back)) by discriminate.
        rewrite (sf_cr cur [CR]) by discriminate.
        rewrite (sf_cr [] back) by (intros H; apply Hcut; now split).
        rewrite (sf_cr [] []) by discriminate. reflexivity.
      * rewrite !sf_crlf. reflexivity.
    + rewrite <- !app_comm_cons in *. simpl in Hl.
      rewrite (sf_cr cur (b :: l ++ x :: back)) by (simpl; assumption).
      rewrite (sf_cr cur (b :: l ++ [x])) by (simpl; assumption).
      rewrite IH. reflexivity.
  - rewrite <- !app_comm_cons. rewrite !sf_lf, IH. reflexivity.
  - rewrite <- !app_comm_cons. rewrite !sf_other by assumption. apply IH.
Qed.

End ForwardFacts.

(** ** The ASCII-compatible terminators *)

Section AsciiFacts.

Lemma in_ascii_new_lines (n : bytes) :
  In n ascii_new_lines <-> n = [CR; LF] \/ n = [LF] \/ n = [CR].
Proof. unfold ascii_new_lines. simpl. intuition congruence. Qed.

Lemma single_nl_in_ascii (y : byte) :
  is_nl y = true -> In [y] ascii_new_lines.
Proof.
  intros H. apply is_nl_true in H. apply in_ascii_new_lines.
  destruct H as [-> | ->]; auto.
Qed.

Lemma occurs_single (t : bytes) (j : nat) (y : byte) :
  nth_error t j = Some y -> occurs_at [y] t j.
Proof.
  revert j. induction t as [|a t IH]; intros [|j] H; simpl in H; try discriminate.
  - injection H as ->. split; [simpl; lia|]. simpl.
    now rewrite (byte_dec_lb eq_refl).
  - apply occurs_at_cons. now apply IH.
Qed.

Lemma no_occurrence_no_nl (l : bytes) :
  (forall n j, In n ascii_new_lines -> ~ occurs_at n l j) -> no_nl l.
Proof.
  intros H. apply Forall_forall. intros y Hy.
  destruct (is_nl y) eqn:E; [exfalso | reflexivity].
  apply In_nth_error in Hy. destruct Hy as [j Hj].
  exact (H [y] j (single_nl_in_ascii y E) (occurs_single l j y Hj)).
Qed.

Lemma occurs_at_head (n t : bytes) (k : nat) (y : byte) (n' : bytes) :
  occurs_at n t k -> n = y :: n' ->
  exists post, skipn k t = y :: post.
Proof.
  intros [_ Hs] ->. apply startswith_iff in Hs. destruct Hs as [q Hq].
  exists (n' ++ q). exact Hq.
Qed.

Lemma ascii_head_nl (n : bytes) :
  In n ascii_new_lines -> exists y n', n = y :: n' /\ is_nl y = true.
Proof.
  intros H. apply in_ascii_new_lines in H.
  destruct H as [-> | [-> | ->]]; eexists _, _; split; reflexivity.
Qed.

Lemma firstn_succ_skipn (t : bytes) (k : nat) (y : byte) (post : bytes) :
  skipn k t = y :: post ->
  t = firstn k t ++ y :: post /\
  firstn (S k) t = firstn k t ++ [y] /\
  skipn (S k) t = post.
Proof.
  revert t. induction k as [|k IH]; intros t H.
  - simpl in H. subst t. repeat split.
  - destruct t as [|a t]; [discriminate|]. simpl in H.
    destruct (IH t H) as [H1 [H2 H3]].
    split; [simpl; now rewrite <- H1|].
    split; [change (firstn (S (S k)) (a :: t)) with (a :: firstn (S k) t);
            now rewrite H2 | exact H3].
Qed.

Lemma no_nl_hd (l : bytes) (y : byte) :
  no_nl l -> hd_error l = Some y -> is_nl y = false.
Proof.
  intros Hl Hy. destruct l as [|a l]; [discriminate|].
  injection Hy as ->. now inversion Hl.
Qed.

Lemma configured_ascii (s : BufferWorkSpace) :
  encoding s = utf_8 \/ encoding s = latin_1 ->
  configured s -> new_lines_bytes s = ascii_new_lines.
Proof. unfold configured. intros [He | He] ->; rewrite He; reflexivity. Qed.

(** [return_line] on a buffer with the ASCII-compatible terminators: the
    buffer is [t ++ term] with [term] its trailing terminator; either [t] is
    [pre ++ x :: post] with [x] the last terminator byte of [t], the line is
    [post] and [pre ++ [x]] stays buffered, or [t] holds no terminator byte,
    [read_position] is 0, the line is [t] and nothing stays buffered. *)
Lemma return_line_ascii (s : BufferWorkSpace) (B : bytes) :
  configured s ->
  new_lines_bytes s = ascii_new_lines ->
  read_buffer s = Some B ->
  yieldable s = Ok true ->
  exists t term,
    B = t ++ term /\
    t = _remove_trailing_new_line B (new_lines_bytes s) /\
    ((exists pre x post,
        t = pre ++ x :: post /\ is_nl x = true /\ no_nl post /\
        (In term ascii_new_lines \/ (term = [] /\ post <> [])) /\
        ~ (x = CR /\ hd_error (post ++ term) = Some LF) /\
        return_line s = Ok (post, set_read_buffer s (Some (pre ++ [x])))) \/
     (no_nl t /\ read_position s = 0 /\
      (In term ascii_new_lines \/ term = []) /\
      return_line s = Ok (t, set_read_buffer s None))).
Proof.
  intros Hc Hnl Hb Hy.
  destruct (return_line_cases s Hc Hy)
    as [buf [r [s' [Hbuf [Hret [Hstrip [Hcase [Hfree [_ [_ _]]]]]]]]]].
  rewrite Hb in Hbuf. injection Hbuf as <-.
  set (t := _remove_trailing_new_line B (new_lines_bytes s)) in *.
  destruct (return_line_state _ _ _ Hret) as [_ [b Hs']].
  rewrite Hnl in Hstrip, Hcase, Hfree.
  pose proof (no_occurrence_no_nl r Hfree) as Hr.
  assert (Hterm : exists term, B = t ++ term /\
            ((In term ascii_new_lines /\
              forall n', In n' ascii_new_lines -> suffix_of n' B ->
                         (length n' <= length term)%nat) \/
             (term = [] /\ forall n, In n ascii_new_lines -> ~ suffix_of n B))).
  { destruct Hstrip as [[n [Hn [Heq Hmax]]] | [Heq Hnone]].
    - exists n. split; [exact Heq | left; split; assumption].
    - exists []. split; [now rewrite app_nil_r | right; split; [reflexivity | exact Hnone]]. }
  destruct Hterm as [term [HBt Hterm]].
  exists t, term. split; [exact HBt|]. split; [reflexivity|].
  destruct Hcase as [[k [[n [Hn Hocc]] [Hmax [Hrk Hbk]]]] | [Hno [Hrt Hbn]]].
  - left.
    destruct (ascii_head_nl n Hn) as [x [n' [Hnx Hx]]].
    destruct (occurs_at_head n t k x n' Hocc Hnx) as [post Hpost].
    destruct (firstn_succ_skipn t k x post Hpost) as [Ht [Hfirst Hskip]].
    exists (firstn k t), x, post.
    rewrite Hskip in Hrk. subst r.
    split; [exact Ht|]. split; [exact Hx|]. split; [exact Hr|].
    split; [|split].
    + destruct Hterm as [[Hin _] | [-> Hnone]]; [now left | right].
      split; [reflexivity|]. intros ->.
      apply (Hnone [x] (single_nl_in_ascii x Hx)).
      exists (firstn k t). rewrite HBt, app_nil_r. exact Ht.
    + intros [-> Hhd].
      destruct post as [|y post].
      * simpl in Hhd. destruct Hterm as [[Hin Hmax'] | [-> _]]; [|discriminate].
        apply in_ascii_new_lines in Hin.
        destruct Hin as [-> | [-> | ->]]; try discriminate.
        assert (Hlen : (length [CR; LF] <= length [LF])%nat).
        { apply Hmax'; [apply in_ascii_new_lines; auto|].
          exists (firstn k t). rewrite HBt.
          transitivity ((firstn k t ++ [CR]) ++ [LF]);
            [now rewrite <- Ht | now rewrite <- app_assoc]. }
        simpl in Hlen. lia.
      * simpl in Hhd. injection Hhd as ->.
        apply Forall_inv in Hr. discriminate.
    + rewrite Hs' in Hbk. cbn [read_buffer set_read_buffer] in Hbk.
      rewrite Hret, Hs', Hbk, Hfirst. reflexivity.
  - right. subst r.
    split; [exact Hr|]. split; [|split].
    + destruct (yieldable_some s B Hc Hb) as [[[k [_ [_ [[n [Hn Hocc]] _]]]] _] | [_ [_ Hy0]]].
      * exfalso. fold t in Hocc. rewrite Hnl in Hn. exact (Hno n k Hn Hocc).
      * rewrite Hy in Hy0. injection Hy0 as Hz. symmetry in Hz.
        now apply Z.eqb_eq in Hz.
    + destruct Hterm as [[Hin _] | [-> _]]; [now left | now right].
    + rewrite Hs' in Hbn. cbn [read_buffer set_read_buffer] in Hbn.
      rewrite Hret, Hs', Hbn. reflexivity.
Qed.

End AsciiFacts.



(** ** The whole backward iteration *)

Section IterationFacts.

Lemma firstn_plus {A} (a d : nat) (l : list A) :
  firstn (a + d) l = firstn a l ++ firstn d (skipn a l).
Proof.
  revert l. induction a as [|a IH]; intros l; [reflexivity|].
  destruct l as [|x l]; simpl.
  - now rewrite firstn_nil.
  - now rewrite IH.
Qed.

Lemma firstn_between (F : bytes) (lo hi : Z) :
  0 <= lo <= hi ->
  firstn (Z.to_nat hi) F = firstn (Z.to_nat lo) F ++ between F lo hi.
Proof.
  intros H. unfold between. rewrite <- firstn_plus. f_equal. lia.
Qed.

Lemma between_nonempty (F : bytes) (lo hi : Z) :
  0 <= lo < hi -> hi <= len F -> between F lo hi <> [].
Proof.
  intros H1 H2 Hnil. apply (f_equal (@length byte)) in Hnil.
  unfold between, len in *. rewrite length_firstn, length_skipn in Hnil.
  simpl in Hnil. lia.
Qed.

Lemma read_once_covers (F P : bytes) (s : BufferWorkSpace) :
  covers F s P -> covers F (read_once s) P.
Proof.
  intros [Hwf [Hnl [Hd [Hpre [HP [Heq Hbuf]]]]]].
  pose proof Hwf as [Hc [Hchunk Hpos]].
  destruct (read_once_spec s (proj1 Hpos) Hchunk)
    as [seek' [Hr [Hlt [_ [Hp [Hd' [_ [_ [Hn Hb]]]]]]]]].
  destruct (read_once_well_formed s Hwf) as [Hwf' _].
  unfold covers. rewrite Hn, Hd', Hp, Hb. unfold buffered at 1. rewrite Hb.
  split; [exact Hwf'|]. split; [exact Hnl|]. split; [exact Hd|].
  split; [exact Hpre|]. split; [exact HP|]. split.
  - rewrite Heq, Hd. rewrite (firstn_between F seek' (read_position s)) by lia.
    now rewrite <- app_assoc.
  - unfold buffered. destruct (read_buffer s) as [b|].
    + intros H. apply app_eq_nil in H. tauto.
    + rewrite app_nil_r. rewrite Hd. apply between_nonempty; [lia|].
      unfold _get_file_size, st_size in Hpos. rewrite Hd in Hpos. lia.
Qed.

Lemma iter_read_once_covers (F P : bytes) (s : BufferWorkSpace) (n : nat) :
  covers F s P -> covers F (Nat.iter n read_once s) P.
Proof.
  intros H. induction n; simpl; [exact H | now apply read_once_covers].
Qed.

Lemma covers_not_done (F P : bytes) (s : BufferWorkSpace) :
  covers F s P -> has_returned_every_line s = false.
Proof.
  intros [_ [_ [_ [_ [_ [_ Hbuf]]]]]]. unfold has_returned_every_line.
  destruct (read_buffer s); [apply andb_false_r|].
  rewrite andb_true_r. apply Z.eqb_neq. lia.
Qed.

Lemma iterate_unfold (fuel : nat) (s : BufferWorkSpace) :
  iterate (S fuel) s =
  if has_returned_every_line s then Some (Ok ([], s))
  else
    match read_until_yieldable (S fuel) s with
    | None => None
    | Some (Raise e) => Some (Raise e)
    | Some (Ok s1) =>
        match return_line s1 with
        | Raise e => Some (Raise e)
        | Ok (r, s2) =>
            match iterate fuel s2 with
            | None => None
            | Some (Raise e) => Some (Raise e)
            | Some (Ok (rest, s3)) => Some (Ok (r :: rest, s3))
            end
        end
    end.
Proof. reflexivity. Qed.

(** From a state that has the lines of [P] still to emit, the iteration
    emits them last line first and ends with the file used up. *)
Lemma iterate_covers (F : bytes) (m : nat) :
  forall (P : bytes) (s : BufferWorkSpace) (fuel : nat),
    (length P <= m)%nat -> covers F s P ->
    (m + length F + 2 <= fuel)%nat ->
    exists s_end,
      iterate fuel s = Some (Ok (rev (map fst (forward_lines P)), s_end)) /\
      read_position s_end = 0 /\ read_buffer s_end = None.
Proof.
  induction m as [|m IH]; intros P s fuel Hlen Hcov Hfuel.
  - destruct Hcov as [_ [_ [_ [_ [HP _]]]]].
    destruct P; [congruence | simpl in Hlen; lia].
  - destruct fuel as [|fuel]; [lia|].
    rewrite iterate_unfold, (covers_not_done F P s Hcov).
    pose proof Hcov as [Hwf [Hnl [Hd [[rest Hrest] [HP [Heq Hbuf]]]]]].
    destruct (read_loop_terminates _ s Hwf (Nat.le_refl _))
      as [n [Hn [Hy [_ Hrun]]]].
    assert (Hposle : (Z.to_nat (read_position s) <= length F)%nat).
    { destruct Hwf as [_ [_ Hpos]].
      unfold _get_file_size, st_size, len in Hpos. rewrite Hd in Hpos. lia. }
    rewrite (Hrun (S fuel)) by lia.
    pose proof (iter_read_once_covers F P s n Hcov) as Hcov1.
    set (s1 := Nat.iter n read_once s) in *.
    destruct Hcov1 as [Hwf1 [Hnl1 [Hd1 [_ [_ [Heq1 Hbuf1]]]]]].
    destruct (read_buffer s1) as [B|] eqn:Hb1.
    2: { unfold yieldable in Hy. rewrite Hb1 in Hy. discriminate. }
    unfold buffered in Heq1. rewrite Hb1 in Heq1.
    set (A := firstn (Z.to_nat (read_position s1)) F) in *.
    destruct (return_line_ascii s1 B (proj1 Hwf1) Hnl1 Hb1 Hy)
      as [t [term [HB [_ [[pre [x [post [Ht [Hx [Hpost [Hterm [Hcut Hret]]]]]]]]
                         | [Ht [Hz [Hterm Hret]]]]]]]]; rewrite Hret.
    + assert (HPeq : P = (A ++ pre) ++ x :: (post ++ term)).
      { rewrite Heq1, HB, Ht, <- !app_assoc. reflexivity. }
      assert (Hcov2 : covers F (set_read_buffer s1 (Some (pre ++ [x])))
                        ((A ++ pre) ++ [x])).
      { unfold covers, buffered. cbn.
        split; [exact Hwf1|]. split; [exact Hnl1|]. split; [exact Hd1|].
        split.
        { exists ((post ++ term) ++ rest). rewrite Hrest, HPeq.
          rewrite <- !app_assoc. simpl. rewrite <- !app_assoc. reflexivity. }
        split; [now destruct (A ++ pre)|].
        split; [fold A; now rewrite <- app_assoc | now destruct pre]. }
      assert (Hshort : (length ((A ++ pre) ++ [x]) <= m)%nat).
      { rewrite HPeq in Hlen. rewrite !length_app in *. simpl in *.
        rewrite length_app in Hlen.
        assert (length post + length term <> 0)%nat; [|lia].
        destruct Hterm as [Hin | [_ Hne]].
        - apply in_ascii_new_lines in Hin.
          destruct Hin as [-> | [-> | ->]]; simpl; lia.
        - destruct post; [congruence | simpl; lia]. }
      destruct (IH _ _ fuel Hshort Hcov2 ltac:(lia)) as [s_end [Hrun2 Hend]].
      rewrite Hrun2. exists s_end. split; [|exact Hend].
      do 3 f_equal. rewrite HPeq. unfold forward_lines.
      rewrite (split_forward_app (A ++ pre) x (post ++ term) [] Hx Hcut).
      rewrite (split_forward_last post term [] Hpost)
        by (destruct Hterm as [H | [H1 H2]]; [now left | now right]).
      rewrite map_app, rev_app_distr. reflexivity.
    + assert (HA : A = []).
      { unfold A. rewrite Hz. reflexivity. }
      assert (HPeq : P = t ++ term).
      { rewrite Heq1, HA, HB. reflexivity. }
      destruct fuel as [|fuel]; [lia|].
      rewrite iterate_unfold.
      assert (Hdone : has_returned_every_line (set_read_buffer s1 None) = true).
      { unfold has_returned_every_line. cbn. rewrite Hz. reflexivity. }
      rewrite Hdone. exists (set_read_buffer s1 None).
      split; [|split; [exact Hz | reflexivity]].
      do 3 f_equal. rewrite HPeq. unfold forward_lines.
      rewrite (split_forward_last t term []); [reflexivity | exact Ht|].
      destruct Hterm as [H | ->]; [now left | right].
      split; [reflexivity|]. simpl. rewrite app_nil_r in HPeq. congruence.
Qed.

(** The iteration over a whole file, from construction. *)
Lemma iterate_init (f : file) (chunk : Z) (e : Encoding) (fuel : nat) :
  0 < chunk ->
  map (encode e) new_lines = ascii_new_lines ->
  (2 * length (data f) + 2 <= fuel)%nat ->
  exists s_end,
    iterate fuel (__init__ f chunk e)
      = Some (Ok (rev (map fst (forward_lines (data f))), s_end)) /\
    read_position s_end = 0 /\ read_buffer s_end = None.
Proof.
  intros Hc He Hfuel. destruct (data f) as [|a F'] eqn:HF.
  - destruct fuel as [|fuel]; [lia|]. rewrite iterate_unfold.
    assert (Hz : read_position (__init__ f chunk e) = 0).
    { unfold __init__, _get_file_size, st_size. cbn. now rewrite HF. }
    assert (Hdone : has_returned_every_line (__init__ f chunk e) = true).
    { unfold has_returned_every_line. rewrite Hz. reflexivity. }
    rewrite Hdone. exists (__init__ f chunk e).
    split; [reflexivity|]. split; [exact Hz | reflexivity].
  - rewrite <- HF in *.
    apply (iterate_covers (data f) (length (data f))); [lia | | lia].
    unfold covers. split; [now apply init_well_formed|].
    split; [exact He|]. split; [reflexivity|].
    split; [exists []; now rewrite app_nil_r|].
    split; [rewrite HF; discriminate|].
    unfold buffered, __init__, _get_file_size, st_size, len. cbn.
    rewrite Nat2Z.id, firstn_all, app_nil_r.
    split; [reflexivity|]. rewrite HF. simpl. lia.
Qed.

End IterationFacts.

(** ** Counting lines *)

Section CountFacts.






Lemma combine_fst_snd {A B} (l : list (A * B)) :
  combine (map fst l) (map snd l) = l.
Proof. induction l as [|[a b] l IH]; simpl; [reflexivity | now rewrite IH]. Qed.

Lemma lines_of_init (content : bytes) (chunk : Z) (e : Encoding) (fuel : nat) :
  0 < chunk -> ascii_compatible e -> (enough content <= fuel)%nat ->
  lines_of fuel content chunk e = Some (rev (map fst (forward_lines content))).
Proof.
  intros Hc He Hfuel. unfold lines_of.
  destruct (iterate_init (open content) chunk e fuel Hc He Hfuel)
    as [s_end [Hrun _]].
  now rewrite Hrun.
Qed.

End CountFacts.

(** C5: for every file content and any two positive chunk sizes the whole
    backward iteration emits the same sequence of lines (with the terminators
    of an ASCII-compatible encoding). *)
Theorem chunk_size_independence (content : bytes) (c1 c2 : Z) (e : Encoding) :
  0 < c1 -> 0 < c2 -> ascii_compatible e ->
  exists lines,
    forall fuel1 fuel2,
      (enough content <= fuel1)%nat -> (enough content <= fuel2)%nat ->
      lines_of fuel1 content c1 e = Some lines /\
      lines_of fuel2 content c2 e = Some lines.
Proof.
  intros H1 H2 He. exists (rev (map fst (forward_lines content))).
  intros fuel1 fuel2 Hf1 Hf2. split; now apply lines_of_init.
Qed.

Lemma chunk_size_independence_witness :
  0 < 1 /\ 0 < 100 /\ ascii_compatible utf_8 /\
  exists lines,
    lines_of 12 (bs "x" ++ [CR; LF] ++ bs "y") 1 utf_8 = Some lines /\
    lines_of 12 (bs "x" ++ [CR; LF] ++ bs "y") 100 utf_8 = Some lines.
Proof.
  split; [reflexivity|]. split; [reflexivity|]. split; [reflexivity|].
  destruct (chunk_size_independence (bs "x" ++ [CR; LF] ++ bs "y") 1 100 utf_8
              eq_refl eq_refl eq_refl) as [lines H].
  exists lines. apply H; unfold enough; simpl; lia.
Defined.

(** Round trip with the terminators of an ASCII-compatible encoding: the
    lines the backward iteration emits, taken in reverse emission order and
    each followed by the terminator that follows it in the file (none after
    the last line of a file that does not end with one), make up the file;
    the lines and terminators are those of the file read forward, and no
    line holds a terminator byte. *)
Theorem round_trip (content : bytes) (chunk : Z) (e : Encoding) :
  0 < chunk -> ascii_compatible e ->
  exists lines terms,
    (forall fuel, (enough content <= fuel)%nat ->
       lines_of fuel content chunk e = Some lines) /\
    length terms = length lines /\
    concat (map with_terminator (combine (rev lines) terms)) = content /\
    combine (rev lines) terms = forward_lines content /\
    Forall no_nl lines /\
    exists front tail,
      terms = front ++ tail /\
      Forall (fun t => In t ascii_new_lines) front /\
      (tail = [] \/ tail = [[]]).
Proof.
  intros Hc He.
  exists (rev (map fst (forward_lines content))), (map snd (forward_lines content)).
  rewrite rev_involutive, combine_fst_snd.
  split; [intros fuel Hf; now apply lines_of_init|].
  split; [now rewrite length_rev, !length_map|].
  split; [apply (split_forward_concat content [])|].
  split; [reflexivity|].
  destruct (split_forward_shape content [] (Forall_nil _))
    as [Hlines [front [tail [Heq [Hfront Htail]]]]].
  fold (forward_lines content) in Hlines, Heq. split.
  - apply Forall_rev. apply Forall_map. exact Hlines.
  - exists (map snd front), (map snd tail). rewrite Heq, map_app.
    split; [reflexivity|]. split; [apply Forall_map; exact Hfront|].
    destruct Htail as [-> | [l [-> _]]]; [now left | now right].
Qed.

Lemma round_trip_witness :
  0 < 1 /\ ascii_compatible utf_8 /\
  exists lines terms,
    lines_of 40 (bs "a" ++ [CR; LF] ++ bs "b" ++ [CR] ++ bs "c" ++ [LF]) 1 utf_8
      = Some lines /\
    concat (map with_terminator (combine (rev lines) terms))
      = bs "a" ++ [CR; LF] ++ bs "b" ++ [CR] ++ bs "c" ++ [LF].
Proof.
  split; [reflexivity|]. split; [reflexivity|].
  destruct (round_trip (bs "a" ++ [CR; LF] ++ bs "b" ++ [CR] ++ bs "c" ++ [LF])
              1 utf_8 eq_refl eq_refl) as [lines [terms [Hrun [_ [Hcat _]]]]].
  exists lines, terms. split; [|exact Hcat].
  apply Hrun. unfold enough. simpl. lia.
Defined.



(** ** Further facts *)

(** The scenarios of the specification. *)
Example scenarios :
  lines_of 40 (bs "one" ++ [LF] ++ bs "two" ++ [LF] ++ bs "three") 4 utf_8
    = Some [bs "three"; bs "two"; bs "one"] /\
  lines_of 40 (bs "a" ++ [CR; LF] ++ bs "b" ++ [CR] ++ bs "c" ++ [LF]) 3 utf_8
    = Some [bs "c"; bs "b"; bs "a"] /\
  lines_of 40 (bs "x" ++ [CR; LF] ++ bs "y") 1 utf_8 = Some [bs "y"; bs "x"] /\
  lines_of 40 [] 5 utf_8 = Some [].
Proof. repeat split. Qed.

(** The read length [_get_what_to_read_next] returns is the distance from
    the seek offset to the previous read position: its [min] always picks
    [previously_read_position - seek_position]. *)
Lemma read_size_is_gap (f : file) (previously_read_position chunk : Z)
  (nls : list bytes) :
  exists f' seek',
    _get_what_to_read_next f previously_read_position chunk nls
      = Ok (f', (seek', previously_read_position - seek')).
Proof.
  destruct (what_to_read_next_cases f previously_read_position chunk nls)
    as [f' [seek' [size' [Hw [_ [Hrange [_ [_ [Hsize _]]]]]]]]].
  exists f', seek'. rewrite Hw. do 3 f_equal. lia.
Qed.

(** With the terminators of UTF-16-LE the line [return_line] returns begins
    with the second byte of the terminator before it, and the buffer it
    leaves ends with the first byte of that terminator. *)
Example utf_16_le_line :
  let content := [ "a"%byte; x00; LF; x00; "b"%byte; x00; LF; x00 ] in
  let s := read_once (__init__ (open content) 100 utf_16_le) in
  read_buffer s = Some content /\
  exists s', return_line s = Ok ([x00; "b"%byte; x00], s') /\
             read_buffer s' = Some [ "a"%byte; x00; LF ].
Proof. cbv zeta. split; [reflexivity|]. eexists. split; reflexivity. Qed.

(** ** The helpers on their own *)

Section HelperFacts.

Lemma partially_read_ascii (b : bytes) :
  _is_partially_read_new_line b ascii_new_lines = true <-> b = [LF].
Proof.
  unfold _is_partially_read_new_line, ascii_new_lines, find.
  split.
  - destruct b as [|x [|y b]].
    + discriminate.
    + cbn [existsb find_from startswith].
      destruct (Byte.eqb CR x) eqn:E1; destruct (Byte.eqb LF x) eqn:E2;
        cbn [andb orb Z.leb Z.compare Z.add Pos.add Pos.succ];
        try discriminate.
      intros _. apply byte_dec_bl in E2. now subst x.
    + cbn [existsb find_from startswith].
      destruct (Byte.eqb CR x); destruct (Byte.eqb LF x);
        destruct (Byte.eqb LF y); destruct b;
        cbn [andb orb Z.leb Z.compare Z.add Pos.add Pos.succ startswith];
        discriminate.
  - intros ->. reflexivity.
Qed.

Lemma file_byte_past_end (content : bytes) (q : Z) :
  len content <= q -> file_byte content q = [].
Proof.
  intros H. unfold file_byte. rewrite skipn_all2; [reflexivity|].
  unfold len in H. lia.
Qed.

Lemma between_app (content : bytes) (lo mid hi : Z) :
  0 <= lo <= mid -> mid <= hi ->
  between content lo mid ++ between content mid hi = between content lo hi.
Proof.
  intros H1 H2. unfold between.
  replace (Z.to_nat (hi - lo)) with (Z.to_nat (mid - lo) + Z.to_nat (hi - mid))%nat
    by lia.
  rewrite firstn_plus, skipn_skipn. do 3 f_equal. lia.
Qed.

Lemma between_length (content : bytes) (lo hi : Z) :
  0 <= lo <= hi -> hi <= len content -> len (between content lo hi) = hi - lo.
Proof.
  intros H1 H2. unfold between, len in *.
  rewrite length_firstn, length_skipn. lia.
Qed.

End HelperFacts.

(** With the terminators of an ASCII-compatible encoding only the byte [\n]
    is a partially read newline ([\r] is not, nor is an empty read).  So
    [_get_what_to_read_next] returns an offset that is 0 or holds a byte
    other than [\n], and every offset it walked over holds [\n]. *)
Theorem what_to_read_next_ascii (f : file) (previously_read_position chunk : Z) :
  (forall b, _is_partially_read_new_line b ascii_new_lines = true <-> b = [LF]) /\
  exists f' seek' size',
    _get_what_to_read_next f previously_read_position chunk ascii_new_lines
      = Ok (f', (seek', size')) /\
    0 <= seek' <= Z.max (previously_read_position - chunk) 0 /\
    (seek' = 0 \/ file_byte (data f) seek' <> [LF]) /\
    forall q, seek' < q <= Z.max (previously_read_position - chunk) 0 ->
              file_byte (data f) q = [LF].
Proof.
  split; [exact partially_read_ascii|].
  destruct (what_to_read_next_cases f previously_read_position chunk
              ascii_new_lines)
    as [f' [seek' [size' [Hw [_ [Hrange [Hall [Hstop _]]]]]]]].
  exists f', seek', size'. split; [exact Hw|]. split; [exact Hrange|]. split.
  - destruct Hstop as [Hz | Hs]; [now left | right].
    intros Hb. apply partially_read_ascii in Hb. congruence.
  - intros q Hq. apply partially_read_ascii. now apply Hall.
Qed.

(** [_get_next_chunk], asked for a chunk size at or above 0 below a position
    inside the file, returns the bytes of the file from the position it
    returns up to [previously_read_position], no more and no fewer; they are
    at least [min(chunk_size, previously_read_position)] bytes, all the bytes
    from offset 0 when the chunk size reaches back to the start; the content
    of the file is untouched and the file pointer is left at
    [previously_read_position]. *)
Theorem next_chunk_is_file_slice (f : file)
  (previously_read_position chunk : Z) (nls : list bytes) :
  0 <= previously_read_position <= _get_file_size f ->
  0 <= chunk ->
  exists f' seek',
    _get_next_chunk f previously_read_position chunk nls
      = Ok (f', (between (data f) seek' previously_read_position, seek')) /\
    data f' = data f /\
    offset f' = previously_read_position /\
    0 <= seek' <= previously_read_position /\
    len (between (data f) seek' previously_read_position)
      = previously_read_position - seek' /\
    Z.min chunk previously_read_position <= previously_read_position - seek' /\
    (previously_read_position <= chunk -> seek' = 0).
Proof.
  intros Hpos Hchunk. unfold _get_file_size, st_size in Hpos.
  destruct (next_chunk_cases f previously_read_position chunk nls
              (proj1 Hpos) Hchunk)
    as [f' [seek' [Hw [Hd [Hoff [Hrange _]]]]]].
  assert (Hlen : len (between (data f) seek' previously_read_position)
                 = previously_read_position - seek')
    by (apply between_length; lia).
  exists f', seek'. split; [exact Hw|]. split; [exact Hd|].
  split; [lia|]. split; [lia|]. split; [exact Hlen|]. split; lia.
Qed.

Lemma next_chunk_is_file_slice_witness :
  let f := open (bs "one" ++ [LF] ++ bs "two") in
  0 <= 7 <= _get_file_size f /\ 0 <= 3 /\
  exists f' seek',
    _get_next_chunk f 7 3 ascii_new_lines
      = Ok (f', (between (data f) seek' 7, seek')) /\
    offset f' = 7.
Proof.
  intros f. split; [split; [lia | apply Z.leb_le; reflexivity]|].
  split; [lia|].
  destruct (next_chunk_is_file_slice f 7 3 ascii_new_lines)
    as [f' [seek' [H1 [_ [H2 _]]]]].
  - split; [lia | apply Z.leb_le; reflexivity].
  - lia.
  - exists f', seek'. split; assumption.
Defined.

Section MoreLoopFacts.

Lemma yieldable_empty_buffer (s : BufferWorkSpace) :
  configured s -> read_buffer s = Some [] ->
  yieldable s = Ok (read_position s =? 0).
Proof.
  intros Hc Hb.
  destruct (configured_nonempty s Hc) as [_ Hall].
  pose proof (remove_trailing_spec [] _ Hall) as Hstrip.
  apply stripped_prefix in Hstrip. destruct Hstrip as [m Hm].
  symmetry in Hm. apply app_eq_nil in Hm. destruct Hm as [Ht _].
  destruct (yieldable_some s [] Hc Hb)
    as [[[k [_ [Hlt _]]] _] | [_ [_ Hy]]]; [|exact Hy].
  rewrite Ht in Hlt. simpl in Hlt. lia.
Qed.

(** [_get_next_chunk] with a chunk size at or below 0, at or past the end
    of the file: a chunk size of 0 or -1 reads no byte and gives a position
    that is not lower; a chunk size below -1 makes [fp.read] raise. *)
Lemma next_chunk_nonpositive (f : file) (previously_read_position chunk : Z)
  (nls : list bytes) :
  chunk <= 0 ->
  0 < previously_read_position ->
  len (data f) <= previously_read_position ->
  (chunk < -1 ->
   _get_next_chunk f previously_read_position chunk nls = Raise ValueError) /\
  (-1 <= chunk ->
   exists f', data f' = data f /\
     _get_next_chunk f previously_read_position chunk nls
       = Ok (f', ([], previously_read_position - chunk))).
Proof.
  intros Hchunk Hpos Hend. unfold _get_next_chunk.
  destruct (what_to_read_next_cases f previously_read_position chunk nls)
    as [f' [seek' [size' [Hw [Hd [Hrange [Hall [_ [Hsize _]]]]]]]]].
  rewrite Hw. cbn [bind].
  assert (Hseek : seek' = previously_read_position - chunk).
  { destruct (Z.eq_dec seek' (previously_read_position - chunk)) as [E | E];
      [exact E | exfalso].
    specialize (Hall (Z.max (previously_read_position - chunk) 0) ltac:(lia)).
    rewrite file_byte_past_end in Hall by lia.
    rewrite partially_read_nothing in Hall. discriminate. }
  assert (Hsz : size' = chunk) by lia.
  assert (Hempty : skipn (Z.to_nat seek') (data f) = []).
  { apply skipn_all2. unfold len in Hend. lia. }
  unfold read, seek. cbn [data offset]. rewrite Hd, Hempty, Hsz.
  split.
  - intros Hlow. destruct (Z.ltb_spec chunk (-1)); [reflexivity | lia].
  - intros Hhigh. destruct (Z.ltb_spec chunk (-1)); [lia|].
    replace (if chunk <? 0 then [] else firstn (Z.to_nat chunk) [])
      with (@nil byte) by (destruct (chunk <? 0); now rewrite ?firstn_nil).
    cbn [bind]. rewrite Hseek. eexists. split; [|reflexivity]. reflexivity.
Qed.

Lemma read_once_nonpositive_chunk (s : BufferWorkSpace) :
  -1 <= chunk_size s <= 0 ->
  0 < read_position s ->
  len (data (fp s)) <= read_position s ->
  read_position (read_once s) = read_position s - chunk_size s /\
  read_buffer (read_once s) = Some (buffered s) /\
  data (fp (read_once s)) = data (fp s) /\
  chunk_size (read_once s) = chunk_size s /\
  encoding (read_once s) = encoding s /\
  new_lines_bytes (read_once s) = new_lines_bytes s /\
  forall fuel, yieldable s = Ok false ->
    read_until_yieldable (S fuel) s = read_until_yieldable fuel (read_once s).
Proof.
  intros Hchunk Hpos Hend.
  destruct (next_chunk_nonpositive (fp s) (read_position s) (chunk_size s)
              (new_lines_bytes s) ltac:(lia) Hpos Hend) as [_ Hok].
  destruct (Hok ltac:(lia)) as [f' [Hd Hw]].
  assert (Hturn : forall fuel, yieldable s = Ok false ->
            read_until_yieldable (S fuel) s
            = read_until_yieldable fuel (read_once s)).
  { intros fuel Hy. rewrite read_until_yieldable_unfold, Hy, Hw. reflexivity. }
  unfold read_once in *. rewrite Hw in *.
  unfold add_to_buffer, set_fp, buffered. cbn.
  split; [reflexivity|]. split; [now destruct (read_buffer s)|].
  split; [exact Hd|]. repeat (split; [reflexivity|]). exact Hturn.
Qed.

Lemma remove_first_match_prefix (line : bytes) (l : list bytes) :
  exists m, remove_first_match line l = firstn m line.
Proof.
  induction l as [|n l IH]; simpl.
  - exists (length line). now rewrite firstn_all.
  - destruct (endswith line n); [|exact IH]. unfold slice_to. eauto.
Qed.

Lemma return_line_prefix (s s' : BufferWorkSpace) (r : bytes) :
  return_line s = Ok (r, s') -> exists m, buffered s' = firstn m (buffered s).
Proof.
  unfold return_line. destruct (yieldable s) as [[|]|]; simpl; try discriminate.
  unfold buffered at 2.
  destruct (read_buffer s) as [buf|]; [|discriminate].
  destruct (_find_furthest_new_line _ _) as [i|]; simpl; [|discriminate].
  destruct (0 <=? i); intros [= <- <-]; unfold buffered; cbn.
  - unfold _remove_trailing_new_line.
    destruct (remove_first_match_prefix buf
                (sorted_longest_first (new_lines_bytes s))) as [m ->].
    unfold slice_to. rewrite firstn_firstn. eauto.
  - now exists O.
Qed.

Lemma firstn_between_prefix (content : bytes) (lo hi : Z) (m : nat) :
  0 <= lo <= hi ->
  exists hi', lo <= hi' <= hi /\
              firstn m (between content lo hi) = between content lo hi'.
Proof.
  intros H. unfold between. rewrite firstn_firstn.
  exists (lo + Z.of_nat (Nat.min m (Z.to_nat (hi - lo)))).
  split; [lia|]. do 2 f_equal. lia.
Qed.

End MoreLoopFacts.

(** [__init__] accepts a chunk size at or below 0.  On a file that is not
    empty [read_until_yieldable] then never returns with chunk size 0 or -1
    (every turn reads no byte and does not lower [read_position]), and raises
    [ValueError] in its first turn with a chunk size below -1 (the read
    length is the chunk size, which [fp.read] refuses). *)
Theorem nonpositive_chunk_loops_or_raises (f : file) (chunk : Z) (e : Encoding)
  (fuel : nat) :
  chunk <= 0 ->
  data f <> [] ->
  (-1 <= chunk -> read_until_yieldable fuel (__init__ f chunk e) = None) /\
  (chunk < -1 ->
   read_until_yieldable (S fuel) (__init__ f chunk e) = Some (Raise ValueError)).
Proof.
  intros Hchunk Hne.
  assert (Hpos : 0 < read_position (__init__ f chunk e)).
  { unfold __init__, _get_file_size, st_size, len. cbn.
    destruct (data f); [congruence | simpl; lia]. }
  assert (Hend : len (data (fp (__init__ f chunk e)))
                 <= read_position (__init__ f chunk e)).
  { unfold __init__, _get_file_size, st_size. cbn. lia. }
  split.
  - intros Hhigh.
    assert (Hinv : forall s,
      configured s -> -1 <= chunk_size s <= 0 -> 0 < read_position s ->
      len (data (fp s)) <= read_position s -> buffered s = [] ->
      read_until_yieldable fuel s = None).
    { induction fuel as [|fuel IH]; intros s Hc Hch Hp Hen Hbuf;
        [reflexivity|].
      assert (Hy : yieldable s = Ok false).
      { unfold buffered in Hbuf. destruct (read_buffer s) as [b|] eqn:Hb.
        - subst b. rewrite (yieldable_empty_buffer s Hc Hb).
          destruct (Z.eqb_spec (read_position s) 0); [lia | reflexivity].
        - unfold yieldable. now rewrite Hb. }
      destruct (read_once_nonpositive_chunk s Hch Hp Hen)
        as [Hp' [Hb [Hd [Hc' [He [Hn Hturn]]]]]].
      rewrite (Hturn fuel Hy). apply IH.
      - unfold configured in *. now rewrite Hn, He.
      - now rewrite Hc'.
      - rewrite Hp'. lia.
      - rewrite Hp', Hd. lia.
      - unfold buffered at 1. now rewrite Hb. }
    apply Hinv; [reflexivity | cbn; lia | exact Hpos | exact Hend | reflexivity].
  - intros Hlow. rewrite read_until_yieldable_unfold.
    change (yieldable (__init__ f chunk e)) with (@Ok bool false). cbv iota.
    destruct (next_chunk_nonpositive (fp (__init__ f chunk e))
                (read_position (__init__ f chunk e)) chunk
                (new_lines_bytes (__init__ f chunk e)) Hchunk Hpos Hend)
      as [Hraise _].
    change (chunk_size (__init__ f chunk e)) with chunk.
    now rewrite (Hraise Hlow).
Qed.

Lemma nonpositive_chunk_loops_or_raises_witness :
  0 <= 0 /\ data (open (bs "ab")) <> [] /\
  read_until_yieldable 50 (__init__ (open (bs "ab")) 0 utf_8) = None /\
  read_until_yieldable 1 (__init__ (open (bs "ab")) (-2) utf_8)
    = Some (Raise ValueError).
Proof.
  split; [lia|]. split; [discriminate|]. split.
  - apply (nonpositive_chunk_loops_or_raises (open (bs "ab")) 0 utf_8 50);
      [lia | discriminate | lia].
  - apply (nonpositive_chunk_loops_or_raises (open (bs "ab")) (-2) utf_8 0);
      [lia | discriminate | lia].
Defined.

(** In every state reachable with a positive chunk size the buffer is the
    content of the file from [read_position] up to some offset of the file:
    what is buffered is always one unbroken stretch of the file that starts
    at [read_position]. *)
Theorem buffer_is_file_slice (f : file) (chunk : Z) (e : Encoding)
  (s : BufferWorkSpace) :
  0 < chunk ->
  reachable f chunk e s ->
  exists edge,
    read_position s <= edge <= _get_file_size f /\
    buffered s = between (data f) (read_position s) edge.
Proof.
  intros Hc Hr.
  induction Hr as [|s s' Hr [edge [Hedge Hbuf]] Hstep].
  - exists (_get_file_size f). split; [cbn; lia|].
    unfold buffered, between. cbn. now rewrite Z.sub_diag.
  - destruct (reachable_well_formed f chunk e s Hc Hr)
      as [Hwf [_ [Hd _]]].
    destruct Hstep as [s s' fuel Hrun | s s' r Hret].
    + destruct (read_until_yieldable_iter _ _ _ Hrun) as [n [-> _]].
      clear Hrun Hr. induction n as [|n IHn]; [eauto|].
      destruct IHn as [edge' [Hedge' Hbuf']].
      destruct (iter_read_once_well_formed n s Hwf) as [Hwfn [_ [Hdn _]]].
      simpl Nat.iter. set (sn := Nat.iter n read_once s) in *.
      pose proof Hwfn as [_ [Hchn Hposn]].
      destruct (read_once_spec sn (proj1 Hposn) Hchn)
        as [seek' [Hrange [_ [_ [Hp [_ [_ [_ [_ Hb]]]]]]]]].
      exists edge'. rewrite Hp. split; [lia|].
      unfold buffered at 1. rewrite Hb, Hbuf', Hdn, Hd.
      apply between_app; lia.
    + destruct (return_line_state _ _ _ Hret) as [_ [b ->]].
      destruct (return_line_prefix _ _ _ Hret) as [m Hm].
      destruct Hwf as [_ [_ Hpos]].
      destruct (firstn_between_prefix (data f) (read_position s) edge m
                  ltac:(lia)) as [edge' [Hedge' Heq]].
      exists edge'. cbn [read_position set_read_buffer].
      split; [lia|]. now rewrite Hm, Hbuf, Heq.
Qed.

Lemma buffer_is_file_slice_witness :
  let f := open (bs "one" ++ [LF] ++ bs "two") in
  0 < 2 /\
  exists s,
    read_until_yieldable 5 (__init__ f 2 utf_8) = Some (Ok s) /\
    exists edge, buffered s = between (data f) (read_position s) edge.
Proof.
  intros f. split; [reflexivity|].
  exists (Nat.iter 2 read_once (__init__ f 2 utf_8)).
  assert (Hrun : read_until_yieldable 5 (__init__ f 2 utf_8)
                 = Some (Ok (Nat.iter 2 read_once (__init__ f 2 utf_8))))
    by (vm_compute; reflexivity).
  split; [exact Hrun|].
  destruct (buffer_is_file_slice f 2 utf_8
              (Nat.iter 2 read_once (__init__ f 2 utf_8)) eq_refl
              (reach_step f 2 utf_8 _ _ (reach_init f 2 utf_8)
                 (step_fill _ _ 5%nat Hrun)))
    as [edge [_ H]].
  exists edge. exact H.
Defined.

(** [return_line] loses no byte and does no I/O: the buffer before the call
    is the buffer after it, then the returned line, then the terminator that
    was stripped (one of the terminators, or nothing); the file object and
    [read_position] are unchanged; and a buffer that held bytes gets
    strictly shorter. *)
Theorem return_line_partition (s s' : BufferWorkSpace) (r : bytes) :
  configured s ->
  return_line s = Ok (r, s') ->
  exists term,
    buffered s = buffered s' ++ r ++ term /\
    (term = [] \/ In term (new_lines_bytes s)) /\
    (buffered s <> [] -> r ++ term <> []) /\
    fp s' = fp s /\
    read_position s' = read_position s.
Proof.
  intros Hc Hret.
  destruct (return_line_state _ _ _ Hret) as [Hy [b Hs']].
  destruct (configured_nonempty s Hc) as [_ Hall].
  rewrite Forall_forall in Hall.
  destruct (return_line_cases s Hc Hy)
    as [buf [r0 [s0 [Hbuf [Hret0 [Hstrip [Hcase _]]]]]]].
  rewrite Hret in Hret0. injection Hret0 as <- <-.
  set (t := _remove_trailing_new_line buf (new_lines_bytes s)) in *.
  assert (Hterm : exists term, buf = t ++ term /\
            (term = [] \/ In term (new_lines_bytes s)) /\
            (term = [] -> forall n, In n (new_lines_bytes s) -> ~ suffix_of n buf)).
  { destruct Hstrip as [[n [Hn [Heq _]]] | [Heq Hnone]].
    - exists n. split; [exact Heq|]. split; [now right|].
      intros ->. exfalso. exact (Hall [] Hn eq_refl).
    - exists []. split; [now rewrite app_nil_r|]. split; [now left|].
      intros _. exact Hnone. }
  destruct Hterm as [term [HB [Hterm Hnone]]].
  exists term. unfold buffered. rewrite Hbuf.
  destruct Hcase as [[k [[n [Hn Hocc]] [_ [Hr Hb]]]] | [_ [Hr Hb]]]; rewrite Hb.
  - pose proof (occurs_at_lt n t k (Hall n Hn) Hocc) as Hlt.
    split; [rewrite HB, Hr, app_assoc, firstn_skipn; reflexivity|].
    split; [exact Hterm|]. split; [|rewrite Hs'; split; reflexivity].
    intros _ Hnil. apply app_eq_nil in Hnil. destruct Hnil as [Hr0 ->].
    rewrite Hr in Hr0. rewrite app_nil_r in HB.
    assert (Hk : S k = length t).
    { apply (f_equal (@length byte)) in Hr0. rewrite length_skipn in Hr0.
      simpl in Hr0. lia. }
    destruct Hocc as [_ Hs]. apply startswith_iff in Hs. destruct Hs as [q Hq].
    assert (Hlen : length (skipn k t) = 1%nat) by (rewrite length_skipn; lia).
    rewrite Hq, length_app in Hlen.
    assert (Hn0 : n <> []) by exact (Hall n Hn).
    assert (Hq0 : q = []).
    { destruct q; [reflexivity|]. destruct n; [congruence|]. simpl in Hlen. lia. }
    subst q. rewrite app_nil_r in Hq.
    apply (Hnone eq_refl n Hn). exists (firstn k t).
    rewrite HB, <- Hq. symmetry. apply firstn_skipn.
  - split; [rewrite HB, Hr; reflexivity|].
    split; [exact Hterm|]. split; [|rewrite Hs'; split; reflexivity].
    intros Hne. rewrite Hr, <- HB. exact Hne.
Qed.

Lemma return_line_partition_witness :
  configured sample_ready /\
  exists r s' term,
    return_line sample_ready = Ok (r, s') /\
    buffered sample_ready = buffered s' ++ r ++ term.
Proof.
  split; [reflexivity|].
  destruct (return_line_partition sample_ready
              (set_read_buffer sample_ready (Some (bs "a" ++ [LF]))) (bs "b")
              eq_refl eq_refl) as [term [H _]].
  eexists _, _, term. split; [reflexivity | exact H].
Defined.

(** [read_until_yieldable] followed by [return_line] in a state where
    [has_returned_every_line] is true (positive chunk size) does not fail:
    the read loop stops after one empty read, [return_line] returns an empty
    line, and [has_returned_every_line] is true again. *)
Theorem extra_line_after_the_end (s : BufferWorkSpace) :
  configured s ->
  0 < chunk_size s ->
  has_returned_every_line s = true ->
  exists s1 s2,
    (forall fuel, (2 <= fuel)%nat -> read_until_yieldable fuel s = Some (Ok s1)) /\
    read_buffer s1 = Some [] /\
    return_line s1 = Ok ([], s2) /\
    has_returned_every_line s2 = true.
Proof.
  intros Hc Hchunk Hdone. unfold has_returned_every_line in Hdone.
  apply andb_true_iff in Hdone. destruct Hdone as [Hz Hb].
  apply Z.eqb_eq in Hz.
  destruct (read_buffer s) as [b|] eqn:Hbuf; [discriminate|]. clear Hb.
  destruct (read_once_spec s ltac:(lia) Hchunk)
    as [seek' [Hrange [_ [_ [Hp [_ [_ [He [Hn Hb1]]]]]]]]].
  assert (Hz1 : read_position (read_once s) = 0) by lia.
  assert (Hseek : seek' = 0) by lia.
  rewrite Hseek in Hb1. clear Hp Hrange Hseek.
  rewrite Hz in Hb1. unfold buffered in Hb1. rewrite Hbuf in Hb1.
  change (between (data (fp s)) 0 0 ++ []) with (@nil byte) in Hb1.
  assert (Hc1 : configured (read_once s)).
  { unfold configured in *. now rewrite Hn, He. }
  assert (Hy1 : yieldable (read_once s) = Ok true).
  { rewrite (yieldable_empty_buffer _ Hc1 Hb1), Hz1. reflexivity. }
  destruct (return_line_cases _ Hc1 Hy1)
    as [buf [r [s2 [Hbuf1 [Hret [Hstrip [Hcase [_ [[rest Hrest] _]]]]]]]]].
  rewrite Hb1 in Hbuf1. injection Hbuf1 as <-.
  apply stripped_prefix in Hstrip. destruct Hstrip as [m Hm].
  symmetry in Hm. apply app_eq_nil in Hm. destruct Hm as [Ht _].
  rewrite Ht in Hrest, Hcase. symmetry in Hrest.
  apply app_eq_nil in Hrest. destruct Hrest as [_ ->].
  destruct (return_line_state _ _ _ Hret) as [_ [b Hs2]].
  exists (read_once s), s2. split; [|split; [exact Hb1 | split; [exact Hret|]]].
  - intros [|[|fuel]] Hf; try lia.
    assert (Hy : yieldable s = Ok false) by (unfold yieldable; now rewrite Hbuf).
    rewrite (read_until_yieldable_turn _ s ltac:(lia) Hchunk Hy).
    rewrite read_until_yieldable_unfold, Hy1. reflexivity.
  - destruct Hcase as [[k [[n [Hn0 Hocc]] _]] | [_ [_ Hb2]]].
    + exfalso. destruct (configured_nonempty _ Hc1) as [_ Hall].
      rewrite Forall_forall in Hall.
      pose proof (occurs_at_lt n [] k (Hall n Hn0) Hocc) as Hlt.
      simpl in Hlt. lia.
    + unfold has_returned_every_line. rewrite Hb2, Hs2. cbn. rewrite Hz1.
      reflexivity.
Qed.

Lemma extra_line_after_the_end_witness :
  let s := __init__ (open []) 3 utf_8 in
  configured s /\ 0 < chunk_size s /\ has_returned_every_line s = true /\
  exists s1 s2,
    read_until_yieldable 2 s = Some (Ok s1) /\
    return_line s1 = Ok ([], s2).
Proof.
  intros s. split; [reflexivity|]. split; [reflexivity|]. split; [reflexivity|].
  destruct (extra_line_after_the_end s eq_refl eq_refl eq_refl)
    as [s1 [s2 [Hrun [_ [Hret _]]]]].
  exists s1, s2. split; [apply Hrun; lia | exact Hret].
Defined.

(** [_find_furthest_new_line] raises [ValueError] exactly on an empty list
    of terminators.  Otherwise it returns an index from -1 up to the length
    of the buffer, below the length when no terminator is empty, and -1
    exactly when no terminator occurs in the buffer. *)
Theorem find_furthest_range (b : bytes) (nls : list bytes) :
  (nls = [] <-> _find_furthest_new_line b nls = Raise ValueError) /\
  (nls <> [] ->
   exists i, _find_furthest_new_line b nls = Ok i /\
     -1 <= i <= len b /\
     (Forall (fun n => n <> []) nls -> i < len b) /\
     (i = -1 <-> forall n k, In n nls -> ~ occurs_at n b k)).
Proof.
  split.
  - split; [intros ->; reflexivity|].
    destruct nls; [reflexivity | discriminate].
  - intros Hne.
    destruct (find_furthest_cases b nls Hne)
      as [i [Hi [[-> Hno] | [k [-> [[n [Hn Hocc]] Hmax]]]]]];
      eexists; (split; [exact Hi|]).
    + pose proof (len_nonneg b). split; [lia|]. split; [intros _; lia|].
      split; [intros _; exact Hno | reflexivity].
    + pose proof Hocc as [Hk _]. unfold len. split; [lia|]. split.
      * intros Hall. rewrite Forall_forall in Hall.
        pose proof (occurs_at_lt n b k (Hall n Hn) Hocc). lia.
      * split; [lia|]. intros Hno. exfalso. exact (Hno n k Hn Hocc).
Qed.

(** With the ASCII-compatible terminators [_find_furthest_new_line] returns
    the position of the last byte of the buffer that is [\r] or [\n] (for a
    [\r\n] that is the position of its [\n]), and -1 when there is none. *)
Theorem find_furthest_last_newline_byte (b : bytes) :
  exists i, _find_furthest_new_line b ascii_new_lines = Ok i /\
    ((i = -1 /\ no_nl b) \/
     (exists pre x post,
        b = pre ++ x :: post /\ i = len pre /\
        is_nl x = true /\ no_nl post)).
Proof.
  destruct (find_furthest_cases b ascii_new_lines ltac:(discriminate))
    as [i [Hi [[-> Hno] | [k [-> [[n [Hn Hocc]] Hmax]]]]]];
    eexists; (split; [exact Hi|]).
  - left. split; [reflexivity|]. apply no_occurrence_no_nl.
    intros n j Hn. exact (Hno n j Hn).
  - right. destruct (ascii_head_nl n Hn) as [x [n' [Hnx Hx]]].
    destruct (occurs_at_head n b k x n' Hocc Hnx) as [post Hpost].
    destruct (firstn_succ_skipn b k x post Hpost) as [Hb [_ Hskip]].
    exists (firstn k b), x, post. split; [exact Hb|]. split.
    + unfold len. rewrite length_firstn. destruct Hocc as [Hk _]. lia.
    + split; [exact Hx|]. apply no_occurrence_no_nl. intros m j Hm Hj.
      rewrite <- Hskip in Hj. apply occurs_at_skipn in Hj.
      * apply (Hmax m (S k + j)%nat Hm); [lia | exact Hj].
      * pose proof (occurs_at_lt n b k ltac:(rewrite Hnx; discriminate) Hocc).
        lia.
Qed.

(** With the ASCII-compatible terminators [_remove_trailing_new_line] cuts
    off a trailing [\r\n] whole, a trailing [\r], a trailing [\n] that no
    [\r] precedes, and nothing else: a line that ends with another byte, and
    the empty line, come back unchanged.  Only one terminator goes. *)
Theorem remove_trailing_ascii (p : bytes) :
  _remove_trailing_new_line (p ++ [CR; LF]) ascii_new_lines = p /\
  _remove_trailing_new_line (p ++ [CR]) ascii_new_lines = p /\
  (~ suffix_of [CR] p ->
   _remove_trailing_new_line (p ++ [LF]) ascii_new_lines = p) /\
  (forall x, is_nl x = false ->
   _remove_trailing_new_line (p ++ [x]) ascii_new_lines = p ++ [x]) /\
  _remove_trailing_new_line [] ascii_new_lines = [].
Proof.
  assert (Hsorted : sorted_longest_first ascii_new_lines = ascii_new_lines)
    by reflexivity.
  unfold _remove_trailing_new_line. rewrite Hsorted.
  unfold ascii_new_lines. cbn [remove_first_match].
  assert (Hyes : forall q n, endswith (q ++ n) n = true).
  { intros q n. apply endswith_iff. now exists q. }
  assert (Hno : forall l n, ~ suffix_of n l -> endswith l n = false).
  { intros l n H. destruct (endswith l n) eqn:E; [|reflexivity].
    apply endswith_iff in E. contradiction. }
  split; [|split; [|split; [|split]]].
  - rewrite (Hyes p [CR; LF]). apply slice_to_suffix. discriminate.
  - rewrite (Hno (p ++ [CR]) [CR; LF]), (Hno (p ++ [CR]) [LF]), (Hyes p [CR]).
    + apply slice_to_suffix. discriminate.
    + intros [q Hq]. apply app_inj_tail in Hq. destruct Hq as [_ Hq].
      discriminate.
    + intros [q Hq]. change (q ++ [CR; LF]) with (q ++ [CR] ++ [LF]) in Hq.
      rewrite app_assoc in Hq. apply app_inj_tail in Hq.
      destruct Hq as [_ Hq]. discriminate.
  - intros Hp. rewrite (Hno (p ++ [LF]) [CR; LF]), (Hyes p [LF]).
    + apply slice_to_suffix. discriminate.
    + intros [q Hq]. change (q ++ [CR; LF]) with (q ++ [CR] ++ [LF]) in Hq.
      rewrite app_assoc in Hq. apply app_inj_tail in Hq.
      destruct Hq as [Hq _]. apply Hp. now exists q.
  - intros x Hx. apply is_nl_false in Hx. destruct Hx as [H1 H2].
    rewrite !Hno; [reflexivity | | |].
    + intros [q Hq]. apply app_inj_tail in Hq. destruct Hq as [_ ->].
      discriminate.
    + intros [q Hq]. apply app_inj_tail in Hq. destruct Hq as [_ ->].
      discriminate.
    + intros [q Hq]. change (q ++ [CR; LF]) with (q ++ [CR] ++ [LF]) in Hq.
      rewrite app_assoc in Hq. apply app_inj_tail in Hq.
      destruct Hq as [_ ->]. discriminate.
  - reflexivity.
Qed.

(** An empty byte string among the terminators makes
    [_remove_trailing_new_line] return the empty byte string for every line
    that no other terminator ends: [line[:-0]] is empty. *)
Theorem empty_terminator_erases_line (line : bytes) (nls : list bytes) :
  In [] nls ->
  (forall n, In n nls -> n <> [] -> ~ suffix_of n line) ->
  _remove_trailing_new_line line nls = [].
Proof.
  intros Hin Hnone. unfold _remove_trailing_new_line.
  assert (Hin' : In [] (sorted_longest_first nls))
    by now apply sorted_longest_first_in.
  assert (Hnone' : forall n, In n (sorted_longest_first nls) -> n <> [] ->
                             ~ suffix_of n line).
  { intros n Hn. apply Hnone. now apply sorted_longest_first_in. }
  clear Hin Hnone.
  induction (sorted_longest_first nls) as [|n l IH]; [destruct Hin'|].
  cbn [remove_first_match]. destruct n as [|a n].
  - unfold endswith. simpl rev. rewrite startswith_nil. apply slice_to_zero.
  - destruct (endswith line (a :: n)) eqn:E.
    + apply endswith_iff in E. exfalso.
      apply (Hnone' (a :: n)); [now left | discriminate | exact E].
    + apply IH.
      * destruct Hin' as [H | H]; [discriminate | exact H].
      * intros m Hm. apply Hnone'. now right.
Qed.

Lemma empty_terminator_erases_line_witness :
  In [] [[LF]; []] /\
  _remove_trailing_new_line (bs "abc") [[LF]; []] = [].
Proof.
  split; [right; now left|].
  apply (empty_terminator_erases_line (bs "abc") [[LF]; []]).
  - right. now left.
  - intros n [<- | [<- | []]] Hn [q Hq]; [|congruence].
    destruct q as [|a [|b [|c [|d q]]]]; discriminate.
Defined.

Section JoinFacts.

Lemma split_forward_line (cur l term rest : bytes) :
  no_nl l ->
  In term ascii_new_lines ->
  ~ (term = [CR] /\ hd_error rest = Some LF) ->
  split_forward cur (l ++ term ++ rest) = (cur ++ l, term) :: split_forward [] rest.
Proof.
  intros Hl Hterm Hcut. revert cur. induction Hl as [|a l Ha Hl IH]; intros cur.
  - rewrite app_nil_l, app_nil_r. apply in_ascii_new_lines in Hterm.
    destruct Hterm as [-> | [-> | ->]].
    + apply sf_crlf.
    + apply sf_lf.
    + apply sf_cr. intros H. apply Hcut. now split.
  - rewrite <- app_comm_cons, sf_other by assumption.
    rewrite IH, <- app_assoc. reflexivity.
Qed.

Lemma joined_head (ls : list bytes) :
  Forall no_nl ls -> hd_error (joined [CR] ls) <> Some LF.
Proof.
  intros Hls. destruct Hls as [|l ls Hl _]; [discriminate|].
  unfold joined. cbn [map concat]. destruct Hl as [|a l Ha _].
  - discriminate.
  - simpl. intros [= ->]. discriminate.
Qed.

Lemma forward_lines_joined (term : bytes) (ls : list bytes) :
  Forall no_nl ls -> In term ascii_new_lines ->
  forward_lines (joined term ls) = map (fun l => (l, term)) ls.
Proof.
  intros Hls Hterm. unfold forward_lines.
  induction Hls as [|l ls Hl Hls IH]; [reflexivity|].
  change (joined term (l :: ls)) with ((l ++ term) ++ joined term ls).
  rewrite <- app_assoc, split_forward_line; try assumption.
  - rewrite IH. reflexivity.
  - intros [-> Hhd]. exact (joined_head ls Hls Hhd).
Qed.

End JoinFacts.

(** Lines without terminator bytes, written to a file each followed by the
    same terminator ([\r\n], [\n] or [\r]), come back from the backward
    iteration unchanged and in reverse order, whatever the terminator and
    the positive chunk size. *)
Theorem join_then_read_backwards (ls : list bytes) (term : bytes) (chunk : Z)
  (e : Encoding) (fuel : nat) :
  Forall no_nl ls ->
  In term ascii_new_lines ->
  0 < chunk ->
  ascii_compatible e ->
  (enough (joined term ls) <= fuel)%nat ->
  lines_of fuel (joined term ls) chunk e = Some (rev ls).
Proof.
  intros Hls Hterm Hc He Hfuel.
  rewrite (lines_of_init _ chunk e fuel Hc He Hfuel).
  rewrite (forward_lines_joined term ls Hls Hterm), map_map. cbn [fst].
  now rewrite map_id.
Qed.

Lemma join_then_read_backwards_witness :
  Forall no_nl [bs "one"; []; bs "three"] /\
  In [CR; LF] ascii_new_lines /\ 0 < 2 /\ ascii_compatible utf_8 /\
  lines_of 40 (joined [CR; LF] [bs "one"; []; bs "three"]) 2 utf_8
    = Some [bs "three"; []; bs "one"].
Proof.
  assert (H : Forall no_nl [bs "one"; []; bs "three"])
    by (repeat constructor).
  split; [exact H|]. split; [now left|]. split; [reflexivity|].
  split; [reflexivity|].
  apply (join_then_read_backwards [bs "one"; []; bs "three"] [CR; LF] 2 utf_8 40 H).
  - now left.
  - reflexivity.
  - reflexivity.
  - unfold enough. simpl. lia.
Defined.

(** With the terminators of UTF-16-LE, whenever [return_line] leaves a
    buffer behind, the line it returns begins with the byte [x00] of the
    terminator before it and the buffer left ends with that terminator's
    first byte: the terminator is cut after one byte. *)
Theorem utf_16_le_cuts_terminator (s s' : BufferWorkSpace) (r residual : bytes) :
  configured s ->
  encoding s = utf_16_le ->
  return_line s = Ok (r, s') ->
  read_buffer s' = Some residual ->
  (exists r', r = x00 :: r') /\
  exists p c, residual = p ++ [c] /\ is_nl c = true.
Proof.
  intros Hc He Hret Hres.
  destruct (return_line_state _ _ _ Hret) as [Hy _].
  destruct (return_line_cases s Hc Hy)
    as [buf [r0 [s0 [_ [Hret0 [_ [Hcase _]]]]]]].
  rewrite Hret in Hret0. injection Hret0 as <- <-.
  destruct Hcase as [[k [[n [Hn Hocc]] [_ [Hr Hb]]]] | [_ [_ Hb]]];
    [|congruence].
  rewrite Hres in Hb. injection Hb as ->.
  unfold configured in Hc. rewrite He in Hc. rewrite Hc in Hn.
  assert (Hshape : exists c n', n = c :: x00 :: n' /\ is_nl c = true).
  { destruct Hn as [<- | [<- | [<- | []]]]; eexists _, _; split; reflexivity. }
  destruct Hshape as [c [n' [-> Hcnl]]].
  destruct (occurs_at_head _ _ k c (x00 :: n') Hocc eq_refl) as [post Hpost].
  destruct Hocc as [_ Hs]. apply startswith_iff in Hs. destruct Hs as [q Hq].
  destruct (firstn_succ_skipn _ k c post Hpost) as [_ [Hfirst Hskip]].
  rewrite Hq in Hpost. injection Hpost as <-.
  split.
  - exists (n' ++ q). rewrite Hr, Hskip. reflexivity.
  - eexists _, c. split; [exact Hfirst | exact Hcnl].
Qed.

Lemma utf_16_le_cuts_terminator_witness :
  let content := [ "a"%byte; x00; LF; x00; "b"%byte; x00; LF; x00 ] in
  let s := read_once (__init__ (open content) 100 utf_16_le) in
  configured s /\ encoding s = utf_16_le /\
  return_line s
    = Ok ([x00; "b"%byte; x00], set_read_buffer s (Some [ "a"%byte; x00; LF ])) /\
  exists r', [x00; "b"%byte; x00] = x00 :: r'.
Proof.
  intros content s.
  split; [reflexivity|]. split; [reflexivity|]. split; [reflexivity|].
  exact (proj1 (utf_16_le_cuts_terminator s
                  (set_read_buffer s (Some [ "a"%byte; x00; LF ]))
                  [x00; "b"%byte; x00] [ "a"%byte; x00; LF ]
                  eq_refl eq_refl eq_refl eq_refl)).
Defined.

Section RunFacts.

Lemma skipn_repeat {A} (x : A) (n k : nat) :
  skipn k (repeat x n) = repeat x (n - k).
Proof.
  revert k. induction n as [|n IH]; intros [|k]; simpl; auto.
Qed.

Lemma file_byte_repeat (x : byte) (n : nat) (q : Z) :
  0 <= q < Z.of_nat n -> file_byte (repeat x n) q = [x].
Proof.
  intros Hq. unfold file_byte. rewrite skipn_repeat.
  destruct (n - Z.to_nat q)%nat eqn:E; [lia | reflexivity].
Qed.

End RunFacts.

(** A read is not bounded by the chunk size: on a file that is one run of
    [\n] bytes, [_get_next_chunk] called at the end of the file with any
    positive chunk size walks back to offset 0 and returns the whole file. *)
Theorem newline_run_is_read_whole (f : file) (n : nat) (chunk : Z) :
  data f = repeat LF n ->
  0 < chunk ->
  exists f',
    _get_next_chunk f (Z.of_nat n) chunk ascii_new_lines
      = Ok (f', (repeat LF n, 0)).
Proof.
  intros Hdata Hchunk.
  destruct (next_chunk_cases f (Z.of_nat n) chunk ascii_new_lines
              ltac:(lia) ltac:(lia))
    as [f' [seek' [Hw [_ [_ [Hrange Hstop]]]]]].
  assert (Hseek : seek' = 0).
  { destruct Hstop as [Hz | Hs]; [exact Hz|].
    destruct (Z.eq_dec seek' 0) as [E | E]; [exact E | exfalso].
    rewrite Hdata, file_byte_repeat in Hs by lia.
    assert (H : _is_partially_read_new_line [LF] ascii_new_lines = true)
      by now apply partially_read_ascii.
    congruence. }
  subst seek'. exists f'. rewrite Hw. do 3 f_equal.
  unfold between. rewrite Hdata. cbn [skipn Z.to_nat].
  rewrite Z.sub_0_r, Nat2Z.id. apply firstn_all2. rewrite repeat_length. lia.
Qed.

Lemma newline_run_is_read_whole_witness :
  data (open (repeat LF 6)) = repeat LF 6 /\ 0 < 1 /\
  exists f',
    _get_next_chunk (open (repeat LF 6)) 6 1 ascii_new_lines
      = Ok (f', (repeat LF 6, 0)).
Proof.
  split; [reflexivity|]. split; [reflexivity|].
  exact (newline_run_is_read_whole (open (repeat LF 6)) 6 1 eq_refl eq_refl).
Defined.


(** C1, failing input: the file [a\nb\n] in UTF-16-LE, read with encoding
    utf-16-le.  The iteration emits [x00 b x00] and then [a x00 \n]: each
    two-byte terminator is cut after its first byte.  Whatever terminators of
    the encoding are put back after the lines in reverse emission order, the
    result is not the file. *)
Lemma utf_16_le_round_trip_fails :
  let content := [ "a"%byte; x00; LF; x00; "b"%byte; x00; LF; x00 ] in
  let nls := map (encode utf_16_le) new_lines in
  nls = [[CR; x00; LF; x00]; [LF; x00]; [CR; x00]] /\
  content = ["a"%byte; x00] ++ [LF; x00] ++ ["b"%byte; x00] ++ [LF; x00] /\
  lines_of 40 content 100 utf_16_le
    = Some [[x00; "b"%byte; x00]; ["a"%byte; x00; LF]] /\
  lines_of 40 content 3 utf_16_le
    = Some [[x00; "b"%byte; x00]; ["a"%byte; x00; LF]] /\
  forall t1 t2,
    In t1 nls -> In t2 nls \/ t2 = [] ->
    ["a"%byte; x00; LF] ++ t1 ++ [x00; "b"%byte; x00] ++ t2 <> content.
Proof.
  cbv zeta. split; [reflexivity|]. split; [reflexivity|].
  split; [vm_compute; reflexivity|]. split; [vm_compute; reflexivity|].
  intros t1 t2 H1 H2.
  destruct H1 as [<- | [<- | [<- | []]]];
    destruct H2 as [[<- | [<- | [<- | []]]] | ->]; discriminate.
Qed.
